(** * ctypes_example: the native Point library and the string example

    A shallow embedding of [clib2/Point.c] and of the C function and the
    Python calls shown in [clib1/ctypes.md], with the properties the
    specification states about them.

    Conventions of the embedding.
    - [int] is a 32-bit two's-complement integer, held as a [Z] and wrapped
      after every increment.  ISO C leaves signed overflow undefined; the
      embedding takes the wrap-around of the usual targets.
    - Memory is a list of objects addressed by their index; an object is never
      reused after it was freed, so a dangling pointer stays dangling.  Only
      [malloc_reusing] hands a freed block out again, to show what the
      usual allocators make of a stale pointer.
    - What ISO C leaves undefined on memory (null or dangling dereference,
      reading an uninitialised field, invalid or double free, reading past
      the end of a buffer) is an explicit outcome [Undef].
    - [printf] appends an event with its format and arguments to the output.
      For a null pointer given for [%s] it follows the C library of the
      article's target, which prints the text (null).
    - The target is the one of the article: [size_t] has 64 bits and
      [wchar_t] four bytes, low byte first. *)

From Stdlib Require Import ZArith Lia String Ascii List.
From stdpp Require Import base list.
Import ListNotations.

Open Scope Z_scope.

(** ** C integers *)

Module CInt.

Definition INT_MAX : Z := 2147483647.
Definition INT_MIN : Z := -2147483648.

Definition in_int (z : Z) : Prop := INT_MIN <= z <= INT_MAX.

(** The value of type [int] that a mathematical result is stored as. *)
Definition wrap_int (z : Z) : Z := (z - INT_MIN) mod 2 ^ 32 + INT_MIN.

(** The value that [v++] stores. *)
Definition int_incr (z : Z) : Z := wrap_int (z + 1).

(** Conversion of an [int] to [size_t] (64 bits), as in [ii < strlen(s)]. *)
Definition to_size_t (z : Z) : Z := z mod 2 ^ 64.

(** The largest size of an object. *)
Definition PTRDIFF_MAX : Z := 2 ^ 63 - 1.

End CInt.
Export CInt.

(** ** Memory, output and the monad of native code *)

(** Modelled from the spec: [Point.h] is not among the sources; the
    specification gives Point as two fixed-width signed integers, x then y. *)
Record Point : Type := mkPoint { x : Z; y : Z }.

Definition wf_Point (p : Point) : Prop := in_int (x p) /\ in_int (y p).

(** Who provided the storage of an object: the caller (a variable or a host
    structure passed by reference) or [malloc]. *)
Inductive storage : Type := Automatic | Malloced.

Inductive status : Type := Allocated | Released.

(** An object of type Point in memory; a field is [None] until it is
    written for the first time. *)
Record object : Type := mkObject {
  origin : storage;
  life : status;
  obj_x : option Z;
  obj_y : option Z
}.

Inductive ptr : Type := NULL | Ptr (b : nat).

Inductive value : Type := VInt (z : Z) | VPtr (a : ptr).

Inductive event : Type := Printf (fmt : string) (args : list value).

(** [heap_room] is the number of objects [malloc] can still provide. *)
Record state : Type := mkState {
  counter : Z;
  mem : list object;
  heap_room : nat;
  stdout : list event
}.

Inductive ub : Type :=
| NullDeref
| WildPointer
| UseAfterFree
| UninitRead
| InvalidFree
| DoubleFree
| OutOfBounds.

(** The result of running native code: a normal return, undefined behaviour,
    or (for the one loop of the sources) an iteration bound that ran out. *)
Inductive outcome (A : Type) : Type :=
| Ok (a : A)
| Undef (u : ub)
| OutOfFuel.
Arguments Ok {A} a.
Arguments Undef {A} u.
Arguments OutOfFuel {A}.

Definition M (A : Type) : Type := state -> outcome (A * state).

Definition ret {A} (a : A) : M A := fun s => Ok (a, s).

Definition bind {A B} (m : M A) (k : A -> M B) : M B :=
  fun s => match m s with
           | Ok (a, s') => k a s'
           | Undef u => Undef u
           | OutOfFuel => OutOfFuel
           end.

Definition undef {A} (u : ub) : M A := fun _ => Undef u.

Declare Scope native_scope.
Delimit Scope native_scope with native.
Notation "'do' v <- m ; k" := (bind m (fun v => k))
  (at level 10, v name, m at level 100, k at level 200) : native_scope.
Notation "m ;; k" := (bind m (fun _ => k))
  (at level 100, k at level 200, right associativity) : native_scope.
Open Scope native_scope.

Definition set_counter (c : Z) (s : state) : state :=
  mkState c (mem s) (heap_room s) (stdout s).
Definition set_mem (m : list object) (s : state) : state :=
  mkState (counter s) m (heap_room s) (stdout s).
Definition set_heap_room (n : nat) (s : state) : state :=
  mkState (counter s) (mem s) n (stdout s).
Definition set_stdout (o : list event) (s : state) : state :=
  mkState (counter s) (mem s) (heap_room s) o.

Definition printf (fmt : string) (args : list value) : M unit :=
  fun s => Ok (tt, set_stdout (stdout s ++ [Printf fmt args]) s).

(** The live object a pointer designates, or the undefined behaviour of
    dereferencing it. *)
Definition deref (a : ptr) : M (nat * object) :=
  fun s => match a with
           | NULL => Undef NullDeref
           | Ptr b => match mem s !! b with
                      | None => Undef WildPointer
                      | Some o => match life o with
                                  | Released => Undef UseAfterFree
                                  | Allocated => Ok ((b, o), s)
                                  end
                      end
           end.

Definition read_field (f : object -> option Z) (a : ptr) : M Z :=
  do bo <- deref a;
  match f (snd bo) with
  | Some z => ret z
  | None => undef UninitRead
  end.

Definition load_x : ptr -> M Z := read_field obj_x.
Definition load_y : ptr -> M Z := read_field obj_y.

Definition with_x (z : Z) (o : object) : object :=
  mkObject (origin o) (life o) (Some z) (obj_y o).
Definition with_y (z : Z) (o : object) : object :=
  mkObject (origin o) (life o) (obj_x o) (Some z).
Definition with_life (l : status) (o : object) : object :=
  mkObject (origin o) l (obj_x o) (obj_y o).

Definition write_field (w : Z -> object -> object) (a : ptr) (z : Z) : M unit :=
  do bo <- deref a;
  fun s => Ok (tt, set_mem (<[fst bo := w z (snd bo)]> (mem s)) s).

Definition store_x : ptr -> Z -> M unit := write_field with_x.
Definition store_y : ptr -> Z -> M unit := write_field with_y.

(** [malloc(sizeof(Point))]: a fresh uninitialised object, or [NULL] when the
    heap has no room left. *)
Definition malloc_Point : M ptr :=
  fun s => match heap_room s with
           | O => Ok (NULL, s)
           | S n =>
               Ok (Ptr (length (mem s)),
                   set_heap_room n
                     (set_mem (mem s ++ [mkObject Malloced Allocated None None]) s))
           end.

(** [free(p)]: nothing for [NULL]; otherwise [p] must be a live object that
    [malloc] returned. *)
Definition free (a : ptr) : M unit :=
  fun s => match a with
           | NULL => Ok (tt, s)
           | Ptr b =>
               match mem s !! b with
               | None => Undef InvalidFree
               | Some o =>
                   match origin o, life o with
                   | Automatic, _ => Undef InvalidFree
                   | Malloced, Released => Undef DoubleFree
                   | Malloced, Allocated =>
                       Ok (tt, set_heap_room (S (heap_room s))
                                 (set_mem (<[b := with_life Released o]> (mem s)) s))
                   end
               end
           end.

(** ** clib2/Point.c *)

(** [static int counter = 0;] is the [counter] field of the state. *)
Definition initial_state (room : nat) : state := mkState 0 [] room [].

(** [counter++] *)
Definition counter_post_incr : M Z :=
  fun s => Ok (counter s, set_counter (int_incr (counter s)) s).

Definition showPoint (point : Point) : M unit :=
  printf "Point in C      is (%d, %d)\n" [VInt (x point); VInt (y point)].

Definition showPointRef (point : ptr) : M unit :=
  do vx <- load_x point;
  do vy <- load_y point;
  printf "Point in C      is (%d, %d)\n" [VInt vx; VInt vy].

Definition movePoint (point : Point) : M unit :=
  printf "Point in C      is (%d, %d)\n" [VInt (x point); VInt (y point)];;
  let point := mkPoint (int_incr (x point)) (y point) in
  let point := mkPoint (x point) (int_incr (y point)) in
  printf "Point in C      is (%d, %d)\n" [VInt (x point); VInt (y point)].

Definition movePointRef (point : ptr) : M unit :=
  do vx <- load_x point;
  do vy <- load_y point;
  printf "Point in C      is (%d, %d)\n" [VInt vx; VInt vy];;
  (do v <- load_x point; store_x point (int_incr v));;
  (do v <- load_y point; store_y point (int_incr v));;
  do vx <- load_x point;
  do vy <- load_y point;
  printf "New point in C  is (%d, %d)\n" [VInt vx; VInt vy].

(** [Point point = { counter++, counter++};] the two initialisers are
    evaluated in the order they are written, x before y.  (C leaves the
    order of the initialisers of a list to the compiler; the embedding takes
    the textual order, which is also the order of the two assignments in
    [getPointPointer].) *)
Definition getPoint : M Point :=
  do c1 <- counter_post_incr;
  do c2 <- counter_post_incr;
  let point := mkPoint c1 c2 in
  printf "Returning Point    (%d, %d)\n" [VInt (x point); VInt (y point)];;
  ret point.

Definition getPointPointer : M ptr :=
  do point <- malloc_Point;
  (do c <- counter_post_incr; store_x point c);;
  (do c <- counter_post_incr; store_y point c);;
  do vx <- load_x point;
  do vy <- load_y point;
  printf "Returning Point    (%d, %d) at %p\n" [VInt vx; VInt vy; VPtr point];;
  ret point.

Definition freePointPointer (point : ptr) : M unit :=
  do vx <- load_x point;
  do vy <- load_y point;
  printf "Freeing Point      (%d, %d) at %p\n" [VInt vx; VInt vy; VPtr point];;
  free point.

(** The functions of the library as calls, and the run of a sequence of
    calls; results are dropped, the state carries every effect. *)
Inductive call : Type :=
| CallShowPoint (p : Point)
| CallShowPointRef (a : ptr)
| CallMovePoint (p : Point)
| CallMovePointRef (a : ptr)
| CallGetPoint
| CallGetPointPointer
| CallFreePointPointer (a : ptr).

Definition exec (c : call) : M unit :=
  match c with
  | CallShowPoint p => showPoint p
  | CallShowPointRef a => showPointRef a
  | CallMovePoint p => movePoint p
  | CallMovePointRef a => movePointRef a
  | CallGetPoint => getPoint;; ret tt
  | CallGetPointPointer => getPointPointer;; ret tt
  | CallFreePointPointer a => freePointPointer a
  end.

Fixpoint run (cs : list call) : M unit :=
  match cs with
  | [] => ret tt
  | c :: cs' => exec c;; run cs'
  end.

(** The caller's side of a call by reference: a variable of type Point with
    the value [p], whose address is passed. *)
Definition declare_Point (p : Point) : M ptr :=
  fun s => Ok (Ptr (length (mem s)),
               set_mem (mem s ++ [mkObject Automatic Allocated (Some (x p)) (Some (y p))]) s).

(** The Point held by the live, initialised object [b]. *)
Definition point_at (s : state) (b : nat) : option Point :=
  match mem s !! b with
  | Some (mkObject _ Allocated (Some vx) (Some vy)) => Some (mkPoint vx vy)
  | _ => None
  end.

Definition life_at (s : state) (b : nat) : option status :=
  life <$> mem s !! b.

(** ** clib1/ctypes.md: the C function [add_one_to_string] *)

(** A [char] buffer is the list of its bytes. *)
Definition NUL : ascii := zero.

Definition is_NUL (c : ascii) : bool := Ascii.eqb c NUL.

(** [strlen]: the number of bytes before the first NUL; without a NUL in the
    buffer the scan leaves it. *)
Fixpoint strlen (s : list ascii) : option nat :=
  match s with
  | [] => None
  | c :: s' => if is_NUL c then Some O else S <$> strlen s'
  end.

(** The byte that [input[ii]++] stores. *)
Definition char_incr (c : ascii) : ascii :=
  ascii_of_N ((N_of_ascii c + 1) mod 256).

(** [for (; ii < strlen(input); ii++) input[ii]++;] with [strlen] evaluated
    again before every iteration, [ii] an [int] and the comparison made in
    [size_t]. *)
Fixpoint add_one_loop (fuel : nat) (ii : Z) (input : list ascii)
  : outcome (list ascii) :=
  match fuel with
  | O => OutOfFuel
  | S fuel' =>
      match strlen input with
      | None => Undef OutOfBounds
      | Some n =>
          if to_size_t ii <? Z.of_nat n then
            if ii <? 0 then Undef OutOfBounds
            else match input !! Z.to_nat ii with
                 | None => Undef OutOfBounds
                 | Some c =>
                     add_one_loop fuel' (int_incr ii)
                       (<[Z.to_nat ii := char_incr c]> input)
                 end
          else Ok input
      end
  end.

Definition add_one_to_string (input : list ascii) : outcome (list ascii) :=
  add_one_loop (S (length input)) 0 input.

(** ** clib1/ctypes.md: the Python calls *)

(** A Python [str] is the sequence of its code points.  A string literal
    stands for the text of its characters (code points below 256). *)
Definition str : Type := list N.
Bind Scope string_scope with str.

Definition text (s : string) : str := map N_of_ascii (list_ascii_of_string s).
Coercion text : string >-> str.

(** The objects of the host that the example uses: an immutable [str] and a
    ctypes string buffer with its bytes. *)
Inductive pyobject : Type :=
| PyStr (s : str)
| PyStringBuffer (raw : list ascii).

(** The host's objects, addressed by reference. *)
Abbreviation host := (list pyobject) (only parsing).

(** [str.encode]: UTF-8.  A text is a [string] whose characters are its code
    points (below 256): one byte below 128, two bytes from 128 on. *)
Definition utf8 (c : ascii) : list ascii :=
  let n := N_of_ascii c in
  if (n <? 128)%N then [c]
  else [ascii_of_N (192 + n / 64); ascii_of_N (128 + n mod 64)].

Definition str_encode (s : string) : list ascii :=
  flat_map utf8 (list_ascii_of_string s).

(** [ctypes.create_string_buffer(init)]: the bytes and a terminating NUL. *)
Definition create_string_buffer (init : list ascii) (h : host) : nat * host :=
  (length h, h ++ [PyStringBuffer (init ++ [NUL])]).

(** The [value] property of a string buffer: the bytes before the first NUL. *)
Fixpoint buffer_value (raw : list ascii) : list ascii :=
  match raw with
  | [] => []
  | c :: raw' => if is_NUL c then [] else c :: buffer_value raw'
  end.

(** How ctypes passes a [str] without a declared signature: a temporary
    array of wide characters (one per code point, four bytes each, low byte
    first) and a wide NUL, which lives for the call only. *)
Definition wchar (c : N) : list ascii :=
  [ascii_of_N (c mod 256); ascii_of_N (c / 256 mod 256);
   ascii_of_N (c / 65536 mod 256); ascii_of_N (c / 16777216 mod 256)]%N.

Definition as_wide_char_string (s : str) : list ascii :=
  flat_map wchar s ++ wchar 0.

(** Modelled from the spec: the error taxonomy of the marshalling boundary;
    the sources have no such errors. *)
Inductive boundary_error : Type :=
| BindingError
| OwnershipViolation
| ClassificationError.

(** What can refuse a call before the native function runs: ctypes itself,
    with [ArgumentError] for an argument it cannot convert, or an error of
    the boundary of the specification. *)
Inductive call_error : Type :=
| ArgumentError
| Boundary (e : boundary_error).

(** The result of a call through ctypes: [inl e] when the call is refused
    before the native function runs, otherwise the outcome of the native
    function; a normal return carries the host afterwards and the bytes of
    the memory the native function was given, as it left them. *)
Definition call_result : Type := call_error + outcome (host * list ascii).

(** [libc.add_one_to_string(arg)] for a reference [arg] to a host object.
    ctypes converts a [str] to its wide-character array and refuses one that
    contains the code point 0 ("embedded null character"); a string buffer
    is passed as it is. *)
Definition libc_add_one_to_string (arg : nat) (h : host) : call_result :=
  match h !! arg with
  | None => inr (Undef WildPointer)
  | Some (PyStr s) =>
      if existsb (N.eqb 0) s then inl ArgumentError
      else
        match add_one_to_string (as_wide_char_string s) with
        | Ok tmp => inr (Ok (h, tmp))
        | Undef u => inr (Undef u)
        | OutOfFuel => inr OutOfFuel
        end
  | Some (PyStringBuffer raw) =>
      match add_one_to_string raw with
      | Ok raw' => inr (Ok (<[arg := PyStringBuffer raw']> h, raw'))
      | Undef u => inr (Undef u)
      | OutOfFuel => inr OutOfFuel
      end
  end.

(** The caller's side of a call by value: the argument is the value read
    from the caller's variable. *)
Definition load_Point (a : ptr) : M Point :=
  do vx <- load_x a;
  do vy <- load_y a;
  ret (mkPoint vx vy).

(** Coordinates drawn from the counter through either function. *)
Inductive source : Type := ByValue | ByPointer.

Definition draw (f : source) : M Point :=
  match f with
  | ByValue => getPoint
  | ByPointer => do a <- getPointPointer; load_Point a
  end.

Fixpoint draws (fs : list source) : M (list Point) :=
  match fs with
  | [] => ret []
  | f :: fs' => do p <- draw f; do ps <- draws fs'; ret (p :: ps)
  end.

Fixpoint pointers (fs : list source) : nat :=
  match fs with
  | [] => O
  | ByValue :: fs' => pointers fs'
  | ByPointer :: fs' => S (pointers fs')
  end.

(** The points [(c, c+1), (c+2, c+3), ...], [n] of them. *)
Fixpoint coordinates (c : Z) (n : nat) : list Point :=
  match n with
  | O => []
  | S n' => mkPoint c (c + 1) :: coordinates (c + 2) n'
  end.

(** A computation under which a released object stays released. *)
Definition keeps_released {A} (m : M A) : Prop :=
  forall s a s' b,
    m s = Ok (a, s') -> life_at s b = Some Released -> life_at s' b = Some Released.

(** ** An allocator that reuses released blocks *)

(** The first object in memory that came from [malloc] and was freed. *)
Fixpoint first_released (m : list object) : option nat :=
  match m with
  | [] => None
  | o :: m' =>
      match origin o, life o with
      | Malloced, Released => Some O
      | _, _ => S <$> first_released m'
      end
  end.

(** [malloc(sizeof(Point))] as the allocators of the usual targets do it: a
    block that was freed is handed out again, with its fields to be written
    anew, before the heap grows. *)
Definition malloc_reusing : M ptr :=
  fun s => match heap_room s with
           | O => Ok (NULL, s)
           | S n =>
               match first_released (mem s) with
               | Some b =>
                   Ok (Ptr b,
                       set_heap_room n
                         (set_mem (<[b := mkObject Malloced Allocated None None]>
                                     (mem s)) s))
               | None =>
                   Ok (Ptr (length (mem s)),
                       set_heap_room n
                         (set_mem (mem s ++ [mkObject Malloced Allocated None None])
                            s))
               end
           end.

(** [getPointPointer] over a given [malloc]; with [malloc_Point] it is
    [getPointPointer] itself. *)
Definition getPointPointer_with (malloc : M ptr) : M ptr :=
  do point <- malloc;
  (do c <- counter_post_incr; store_x point c);;
  (do c <- counter_post_incr; store_y point c);;
  do vx <- load_x point;
  do vy <- load_y point;
  printf "Returning Point    (%d, %d) at %p\n" [VInt vx; VInt vy; VPtr point];;
  ret point.

(** ** Bookkeeping over sequences of calls of the Point library *)

(** The calls of a sequence that allocate and that release. *)
Fixpoint allocations (cs : list call) : nat :=
  match cs with
  | [] => O
  | CallGetPointPointer :: cs' => S (allocations cs')
  | _ :: cs' => allocations cs'
  end.

Fixpoint releases (cs : list call) : nat :=
  match cs with
  | [] => O
  | CallFreePointPointer _ :: cs' => S (releases cs')
  | _ :: cs' => releases cs'
  end.

(** The number of times a call evaluates [counter++]. *)
Definition ticks_of (c : call) : Z :=
  match c with
  | CallGetPoint | CallGetPointPointer => 2
  | _ => 0
  end.

Fixpoint ticks (cs : list call) : Z :=
  match cs with
  | [] => 0
  | c :: cs' => ticks_of c + ticks cs'
  end.

(** The number of [printf] statements a call executes. *)
Definition lines_of (c : call) : nat :=
  match c with
  | CallMovePoint _ | CallMovePointRef _ => 2
  | _ => 1
  end.

Fixpoint lines (cs : list call) : nat :=
  match cs with
  | [] => O
  | c :: cs' => (lines_of c + lines cs')%nat
  end.

(** The objects obtained from [malloc] and not yet freed. *)
Fixpoint live_malloced (m : list object) : nat :=
  match m with
  | [] => O
  | o :: m' =>
      (match origin o, life o with
       | Malloced, Allocated => 1
       | _, _ => 0
       end + live_malloced m')%nat
  end.

(** Every value of type [int] held by the state is in the range of [int]. *)
Definition in_int_opt (v : option Z) : Prop :=
  match v with
  | Some z => in_int z
  | None => True
  end.

Definition wf_object (o : object) : Prop :=
  in_int_opt (obj_x o) /\ in_int_opt (obj_y o).

Definition wf_state (s : state) : Prop :=
  in_int (counter s) /\ Forall wf_object (mem s).

(** ** clib1/ctypes.md: [alloc_C_string] and [free_C_string] *)

(** The memory of the string example: [char] arrays obtained from [strdup],
    each live or released, the number of arrays [strdup] can still provide,
    and the output. *)
Record cstring : Type := mkCString { c_life : status; c_bytes : list ascii }.

(** The arguments of the two [printf] calls: a pointer for [%p], the same
    pointer converted to [long int] for [%ld], and for [%s] the bytes that
    are read from the string. *)
Inductive cvalue : Type :=
| CPtr (a : ptr)
| CLong (a : ptr)
| CStr (bytes : list ascii).

Inductive cevent : Type := CPrintf (fmt : string) (args : list cvalue).

Record cstate : Type := mkCState {
  strings : list cstring;
  string_room : nat;
  cstdout : list cevent
}.

(** The string a [char *] designates, as [printf] reads it for [%s] and
    ctypes for the [value] of a pointer that is not null: the bytes before
    the first NUL of a live array.  For a null pointer the [printf] of the
    article's target (glibc) prints the text (null). *)
Definition string_at (a : ptr) (s : cstate) : outcome (list ascii) :=
  match a with
  | NULL => Ok (list_ascii_of_string "(null)")
  | Ptr b =>
      match strings s !! b with
      | None => Undef WildPointer
      | Some (mkCString Released _) => Undef UseAfterFree
      | Some (mkCString Allocated raw) =>
          match strlen raw with
          | None => Undef OutOfBounds
          | Some n => Ok (take n raw)
          end
      end
  end.

(** [strdup(src)]: a new array with the bytes of [src] before its first NUL
    and a NUL, or [NULL] when there is no memory; [src] is the array of a
    string literal, which ends with a NUL. *)
Definition strdup (src : list ascii) (s : cstate) : ptr * cstate :=
  match string_room s with
  | O => (NULL, s)
  | S n =>
      (Ptr (length (strings s)),
       mkCState (strings s ++ [mkCString Allocated (buffer_value src ++ [NUL])])
         n (cstdout s))
  end.

Definition free_string (a : ptr) (s : cstate) : outcome (unit * cstate) :=
  match a with
  | NULL => Ok (tt, s)
  | Ptr b =>
      match strings s !! b with
      | None => Undef InvalidFree
      | Some (mkCString Released _) => Undef DoubleFree
      | Some (mkCString Allocated raw) =>
          Ok (tt, mkCState (<[b := mkCString Released raw]> (strings s))
                    (S (string_room s)) (cstdout s))
      end
  end.

Definition cprintf (fmt : string) (args : list cvalue) (s : cstate) : cstate :=
  mkCState (strings s) (string_room s) (cstdout s ++ [CPrintf fmt args]).

(** The array of the literal ["I was written in C"]. *)
Definition phrase_literal : list ascii :=
  list_ascii_of_string "I was written in C" ++ [NUL].

Definition alloc_C_string (s : cstate) : outcome (ptr * cstate) :=
  let '(phrase, s1) := strdup phrase_literal s in
  match string_at phrase s1 with
  | Ok text =>
      Ok (phrase,
          cprintf "      C just allocated %p(%ld):  %s\n"
            [CPtr phrase; CLong phrase; CStr text] s1)
  | Undef u => Undef u
  | OutOfFuel => OutOfFuel
  end.

Definition free_C_string (ptr : ptr) (s : cstate) : outcome (unit * cstate) :=
  match string_at ptr s with
  | Ok text =>
      free_string ptr
        (cprintf "         About to free %p(%ld):  %s\n"
           [CPtr ptr; CLong ptr; CStr text] s)
  | Undef u => Undef u
  | OutOfFuel => OutOfFuel
  end.

(** [ctypes.c_char_p.from_buffer(c_string_address).value]: the bytes of the
    string at the address, [None] for a null address. *)
Definition c_char_p_value (a : ptr) (s : cstate) : outcome (option (list ascii)) :=
  match a with
  | NULL => Ok None
  | Ptr _ =>
      match string_at a s with
      | Ok text => Ok (Some text)
      | Undef u => Undef u
      | OutOfFuel => OutOfFuel
      end
  end.

Definition cstring_life_at (s : cstate) (b : nat) : option status :=
  c_life <$> strings s !! b.

(** * Properties *)

(** ** C integers *)

Lemma wrap_int_id z : in_int z -> wrap_int z = z.
Proof.
  unfold in_int, wrap_int, INT_MIN, INT_MAX. intros H.
  rewrite Z.mod_small; lia.
Qed.

Lemma in_int_wrap z : in_int (wrap_int z).
Proof.
  unfold in_int, wrap_int, INT_MIN, INT_MAX.
  pose proof (Z.mod_pos_bound (z - -2147483648) (2 ^ 32) ltac:(lia)). lia.
Qed.

Lemma int_incr_succ z : INT_MIN <= z -> z < INT_MAX -> int_incr z = z + 1.
Proof.
  intros H1 H2. apply wrap_int_id. unfold in_int, INT_MIN, INT_MAX in *. lia.
Qed.

Lemma int_incr_max : int_incr INT_MAX = INT_MIN.
Proof. reflexivity. Qed.

Lemma wrap_int_wrap_add a b : wrap_int (wrap_int a + b) = wrap_int (a + b).
Proof.
  unfold wrap_int. f_equal.
  replace ((a - INT_MIN) mod 2 ^ 32 + INT_MIN + b - INT_MIN)
    with ((a - INT_MIN) mod 2 ^ 32 + b) by lia.
  rewrite Zplus_mod_idemp_l. f_equal. lia.
Qed.

Lemma int_incr_twice c : int_incr (int_incr c) = wrap_int (c + 2).
Proof.
  unfold int_incr. rewrite wrap_int_wrap_add. f_equal. lia.
Qed.

(** ** The monad *)

Lemma bind_Ok {A B} (m : M A) (k : A -> M B) s a s' :
  m s = Ok (a, s') -> bind m k s = k a s'.
Proof. unfold bind. now intros ->. Qed.

Lemma bind_inv {A B} (m : M A) (k : A -> M B) s r :
  bind m k s = Ok r -> exists a s', m s = Ok (a, s') /\ k a s' = Ok r.
Proof.
  unfold bind. destruct (m s) as [[a s']| |]; [eauto | discriminate..].
Qed.

(** ** Memory primitives *)

Section Primitives.

Variables (s : state) (b : nat) (o : object).
Hypothesis Hb : mem s !! b = Some o.
Hypothesis Hlive : life o = Allocated.

Lemma deref_live : deref (Ptr b) s = Ok ((b, o), s).
Proof. unfold deref. now rewrite Hb, Hlive. Qed.

Lemma read_field_live f z :
  f o = Some z -> read_field f (Ptr b) s = Ok (z, s).
Proof.
  intros Hf. unfold read_field.
  rewrite (bind_Ok _ _ _ _ _ deref_live). simpl. now rewrite Hf.
Qed.

Lemma write_field_live w z :
  write_field w (Ptr b) z s = Ok (tt, set_mem (<[b := w z o]> (mem s)) s).
Proof.
  unfold write_field. now rewrite (bind_Ok _ _ _ _ _ deref_live).
Qed.

End Primitives.

Lemma lookup_set_mem_same s b o o' :
  mem s !! b = Some o -> mem (set_mem (<[b := o']> (mem s)) s) !! b = Some o'.
Proof.
  intros H. simpl. apply list_lookup_insert_eq. now apply lookup_lt_Some in H.
Qed.

Lemma deref_released s b :
  life_at s b = Some Released -> deref (Ptr b) s = Undef UseAfterFree.
Proof.
  unfold life_at, deref. destruct (mem s !! b) as [o|]; simpl; [|discriminate].
  intros [= ->]. reflexivity.
Qed.

(** ** Display and move *)

Lemma declare_Point_spec p s :
  declare_Point p s =
    Ok (Ptr (length (mem s)),
        set_mem (mem s ++ [mkObject Automatic Allocated (Some (x p)) (Some (y p))]) s).
Proof. reflexivity. Qed.

Lemma showPoint_spec p s :
  showPoint p s =
    Ok (tt, set_stdout
              (stdout s ++ [Printf "Point in C      is (%d, %d)\n"
                              [VInt (x p); VInt (y p)]]) s).
Proof. reflexivity. Qed.

Lemma point_at_inv s b p :
  point_at s b = Some p ->
  exists g, mem s !! b = Some (mkObject g Allocated (Some (x p)) (Some (y p))).
Proof.
  unfold point_at. destruct (mem s !! b) as [[g [] [vx|] [vy|]]|]; try discriminate.
  intros [= <-]. eauto.
Qed.

Lemma showPointRef_spec s b p :
  point_at s b = Some p -> showPointRef (Ptr b) s = showPoint p s.
Proof.
  intros [g Hg]%point_at_inv. unfold showPointRef, load_x, load_y.
  rewrite (bind_Ok _ _ _ _ _ (read_field_live s b _ Hg eq_refl obj_x _ eq_refl)).
  rewrite (bind_Ok _ _ _ _ _ (read_field_live s b _ Hg eq_refl obj_y _ eq_refl)).
  reflexivity.
Qed.

Lemma movePoint_spec p s :
  movePoint p s =
    Ok (tt, set_stdout
              (stdout s ++
                 [Printf "Point in C      is (%d, %d)\n" [VInt (x p); VInt (y p)];
                  Printf "Point in C      is (%d, %d)\n"
                    [VInt (int_incr (x p)); VInt (int_incr (y p))]]) s).
Proof.
  unfold movePoint, bind, printf, set_stdout. simpl.
  now rewrite <- app_assoc.
Qed.

Lemma movePointRef_spec s b g vx vy :
  mem s !! b = Some (mkObject g Allocated (Some vx) (Some vy)) ->
  movePointRef (Ptr b) s =
    Ok (tt, set_stdout
              (stdout s ++
                 [Printf "Point in C      is (%d, %d)\n" [VInt vx; VInt vy];
                  Printf "New point in C  is (%d, %d)\n"
                    [VInt (int_incr vx); VInt (int_incr vy)]])
              (set_mem (<[b := mkObject g Allocated (Some (int_incr vx))
                                  (Some (int_incr vy))]> (mem s)) s)).
Proof.
  intros Hb. unfold movePointRef, load_x, load_y, store_x, store_y.
  rewrite (bind_Ok _ _ _ _ _ (read_field_live s b _ Hb eq_refl obj_x _ eq_refl)).
  rewrite (bind_Ok _ _ _ _ _ (read_field_live s b _ Hb eq_refl obj_y _ eq_refl)).
  unfold printf at 1.
  erewrite bind_Ok by reflexivity.
  set (s1 := set_stdout _ s).
  assert (H1 : mem s1 !! b = Some (mkObject g Allocated (Some vx) (Some vy))) by exact Hb.
  erewrite (bind_Ok (bind _ _)).
  2:{ rewrite (bind_Ok _ _ _ _ _ (read_field_live s1 b _ H1 eq_refl obj_x _ eq_refl)).
      apply (write_field_live s1 b _ H1 eq_refl). }
  set (s2 := set_mem _ s1).
  assert (H2 : mem s2 !! b = Some (mkObject g Allocated (Some (int_incr vx)) (Some vy))).
  { subst s2. now apply lookup_set_mem_same with (o := mkObject g Allocated (Some vx) (Some vy)). }
  erewrite (bind_Ok (bind _ _)).
  2:{ rewrite (bind_Ok _ _ _ _ _ (read_field_live s2 b _ H2 eq_refl obj_y _ eq_refl)).
      apply (write_field_live s2 b _ H2 eq_refl). }
  set (s3 := set_mem _ s2).
  assert (H3 : mem s3 !! b =
               Some (mkObject g Allocated (Some (int_incr vx)) (Some (int_incr vy)))).
  { subst s3. now apply lookup_set_mem_same with (o := mkObject g Allocated (Some (int_incr vx)) (Some vy)). }
  rewrite (bind_Ok _ _ _ _ _ (read_field_live s3 b _ H3 eq_refl obj_x _ eq_refl)).
  rewrite (bind_Ok _ _ _ _ _ (read_field_live s3 b _ H3 eq_refl obj_y _ eq_refl)).
  unfold printf, set_stdout, set_mem, with_x, with_y. subst s3 s2 s1. simpl.
  rewrite <- app_assoc. simpl.
  rewrite !list_insert_insert_eq. reflexivity.
Qed.

(** C5.  Pass by value: for every Point [p] and every state, [movePoint p]
    returns, displays [p] and the incremented local copy, and leaves the
    whole memory as it was, so a caller's variable that holds [p] still
    holds [p]; the counter and the heap are untouched as well.  The same
    holds when the argument is read from the caller's variable. *)
Theorem C5_movePoint_leaves_caller_unchanged (p : Point) (s : state) :
  exists s',
    movePoint p s = Ok (tt, s') /\
    mem s' = mem s /\
    (forall b, point_at s' b = point_at s b) /\
    counter s' = counter s /\
    heap_room s' = heap_room s /\
    stdout s' =
      stdout s ++
        [Printf "Point in C      is (%d, %d)\n" [VInt (x p); VInt (y p)];
         Printf "Point in C      is (%d, %d)\n"
           [VInt (int_incr (x p)); VInt (int_incr (y p))]] /\
    (do a <- declare_Point p; do v <- load_Point a; movePoint v;; load_Point a) s
      = (do a <- declare_Point p; movePoint p;; ret p) s.
Proof.
  eexists. split; [apply movePoint_spec|]. repeat split.
  pose proof (declare_Point_spec p s) as Hdecl.
  set (s0 := set_mem _ s) in Hdecl. set (b := length (mem s)) in Hdecl.
  assert (Hb : mem s0 !! b = Some (mkObject Automatic Allocated (Some (x p)) (Some (y p)))).
  { subst s0 b. simpl. now rewrite lookup_app_r, Nat.sub_diag by lia. }
  assert (Hload : forall t, mem t = mem s0 -> load_Point (Ptr b) t = Ok (p, t)).
  { intros t Ht. unfold load_Point, load_x, load_y. rewrite <- Ht in Hb.
    rewrite (bind_Ok _ _ _ _ _ (read_field_live t b _ Hb eq_refl obj_x _ eq_refl)).
    rewrite (bind_Ok _ _ _ _ _ (read_field_live t b _ Hb eq_refl obj_y _ eq_refl)).
    now destruct p. }
  rewrite !(bind_Ok _ _ _ _ _ Hdecl).
  rewrite (bind_Ok _ _ _ _ _ (Hload s0 eq_refl)).
  rewrite !(bind_Ok _ _ _ _ _ (movePoint_spec p s0)).
  now rewrite Hload.
Qed.

(** C8.  For every Point [p] held by a live object [b], [showPointRef] on the
    address of [b] is the same computation as [showPoint p]: it returns,
    appends the one event with the coordinates of [p] to the output, and
    changes neither the memory (so [p] is not mutated and nothing is
    allocated) nor the counter nor the room of the heap. *)
Theorem C8_show_by_value_and_by_reference_agree
  (p : Point) (s : state) (b : nat) :
  point_at s b = Some p ->
  showPointRef (Ptr b) s = showPoint p s /\
  exists s',
    showPoint p s = Ok (tt, s') /\
    stdout s' =
      stdout s ++
        [Printf "Point in C      is (%d, %d)\n" [VInt (x p); VInt (y p)]] /\
    mem s' = mem s /\
    point_at s' b = Some p /\
    counter s' = counter s /\
    heap_room s' = heap_room s.
Proof.
  intros Hp. split; [now apply showPointRef_spec|].
  eexists. split; [apply showPoint_spec|]. repeat split. exact Hp.
Qed.

Lemma C8_show_witness :
  let s := mkState 0 [mkObject Automatic Allocated (Some 3) (Some 4)] 0 [] in
  showPointRef (Ptr 0) s = showPoint (mkPoint 3 4) s /\
  exists s',
    showPoint (mkPoint 3 4) s = Ok (tt, s') /\
    stdout s' =
      stdout s ++ [Printf "Point in C      is (%d, %d)\n" [VInt 3; VInt 4]] /\
    mem s' = mem s /\
    point_at s' 0%nat = Some (mkPoint 3 4) /\
    counter s' = counter s /\
    heap_room s' = heap_room s.
Proof.
  intros s.
  apply (C8_show_by_value_and_by_reference_agree (mkPoint 3 4) s 0%nat).
  reflexivity.
Defined.

(** C6, as stated, fails where a field is [INT_MAX]: the increment through
    the reference stores [INT_MIN], not [INT_MAX + 1]. *)
Lemma C6_counterexample :
  let p := mkPoint INT_MAX 0 in
  let s := mkState 0 [mkObject Automatic Allocated (Some (x p)) (Some (y p))] 0 [] in
  wf_Point p /\
  point_at s 0%nat = Some p /\
  exists s',
    movePointRef (Ptr 0) s = Ok (tt, s') /\
    point_at s' 0%nat = Some (mkPoint (-2147483648) 1) /\
    point_at s' 0%nat <> Some (mkPoint (x p + 1) (y p + 1)).
Proof.
  simpl. split; [|split; [reflexivity|]].
  - unfold wf_Point, in_int, INT_MIN, INT_MAX. simpl. lia.
  - eexists. split; [reflexivity|]. split; [reflexivity|]. discriminate.
Qed.

(** C6 (amended).  For every Point [p] held by a live object [b] with both
    fields of [p] below [INT_MAX], [movePointRef] on the address of [b]
    returns and leaves [b] holding [(x p + 1, y p + 1)]; every other object,
    the origin and liveness of [b], the counter and the room of the heap are
    unchanged, and the output gains the two lines of the function. *)
Theorem C6_movePointRef_increments_both_fields
  (p : Point) (s : state) (b : nat) :
  point_at s b = Some p ->
  wf_Point p -> x p < INT_MAX -> y p < INT_MAX ->
  exists s',
    movePointRef (Ptr b) s = Ok (tt, s') /\
    point_at s' b = Some (mkPoint (x p + 1) (y p + 1)) /\
    (forall b', b' <> b -> mem s' !! b' = mem s !! b') /\
    length (mem s') = length (mem s) /\
    origin <$> mem s' !! b = origin <$> mem s !! b /\
    life_at s' b = life_at s b /\
    counter s' = counter s /\
    heap_room s' = heap_room s /\
    stdout s' =
      stdout s ++
        [Printf "Point in C      is (%d, %d)\n" [VInt (x p); VInt (y p)];
         Printf "New point in C  is (%d, %d)\n"
           [VInt (x p + 1); VInt (y p + 1)]].
Proof.
  intros Hp [[Hx _] [Hy _]] Hx' Hy'.
  destruct (point_at_inv _ _ _ Hp) as [g Hg].
  pose proof (lookup_lt_Some _ _ _ Hg) as Hlt.
  eexists. split; [apply (movePointRef_spec _ _ _ _ _ Hg)|].
  rewrite !int_incr_succ by assumption.
  unfold point_at, life_at. simpl.
  rewrite list_lookup_insert_eq, Hg by assumption. simpl.
  repeat split.
  - intros b' Hne. now apply list_lookup_insert_ne.
  - apply length_insert.
Qed.

Lemma C6_movePointRef_witness :
  let s := mkState 7 [mkObject Automatic Allocated (Some 3) (Some 4)] 0 [] in
  exists s',
    movePointRef (Ptr 0) s = Ok (tt, s') /\
    point_at s' 0%nat = Some (mkPoint 4 5).
Proof.
  intros s.
  destruct (C6_movePointRef_increments_both_fields (mkPoint 3 4) s 0%nat)
    as (s' & Hrun & Hat & _).
  - reflexivity.
  - unfold wf_Point, in_int, INT_MIN, INT_MAX. simpl. lia.
  - unfold INT_MAX. simpl. lia.
  - unfold INT_MAX. simpl. lia.
  - exists s'. split; assumption.
Defined.

(** ** The counter *)

Lemma getPoint_spec s :
  getPoint s =
    Ok (mkPoint (counter s) (int_incr (counter s)),
        mkState (int_incr (int_incr (counter s))) (mem s) (heap_room s)
          (stdout s ++
             [Printf "Returning Point    (%d, %d)\n"
                [VInt (counter s); VInt (int_incr (counter s))]])).
Proof. reflexivity. Qed.

Lemma getPointPointer_spec s n :
  heap_room s = S n ->
  getPointPointer s =
    Ok (Ptr (length (mem s)),
        mkState (int_incr (int_incr (counter s)))
          (mem s ++ [mkObject Malloced Allocated
                       (Some (counter s)) (Some (int_incr (counter s)))])
          n
          (stdout s ++
             [Printf "Returning Point    (%d, %d) at %p\n"
                [VInt (counter s); VInt (int_incr (counter s));
                 VPtr (Ptr (length (mem s)))]])).
Proof.
  intros Hroom.
  unfold getPointPointer, bind, malloc_Point, counter_post_incr,
    store_x, store_y, load_x, load_y, write_field, read_field, bind, deref.
  rewrite Hroom. simpl.
  repeat (first [ rewrite lookup_app_r by lia
                | rewrite insert_app_r_alt by lia
                | rewrite Nat.sub_diag ]; simpl).
  reflexivity.
Qed.

Lemma getPointPointer_no_room s :
  heap_room s = O -> getPointPointer s = Undef NullDeref.
Proof.
  intros Hroom. unfold getPointPointer, bind, malloc_Point. now rewrite Hroom.
Qed.

Lemma draw_spec f s :
  (f = ByPointer -> heap_room s <> O) ->
  exists s',
    draw f s = Ok (mkPoint (counter s) (int_incr (counter s)), s') /\
    counter s' = int_incr (int_incr (counter s)) /\
    heap_room s' = (heap_room s - pointers [f])%nat.
Proof.
  intros Hroom. destruct f; simpl.
  - rewrite getPoint_spec. eexists. split; [reflexivity|]. simpl. split; [reflexivity|lia].
  - destruct (heap_room s) as [|n] eqn:E; [now destruct Hroom|].
    rewrite (bind_Ok _ _ _ _ _ (getPointPointer_spec s n E)).
    unfold load_Point, load_x, load_y, read_field, bind, deref. simpl.
    repeat (rewrite lookup_app_r, Nat.sub_diag by lia; simpl).
    eexists. split; [reflexivity|]. simpl. split; [reflexivity|lia].
Qed.

Lemma coordinates_lookup n : forall c k p,
  coordinates c n !! k = Some p ->
  x p = c + 2 * Z.of_nat k /\ y p = c + 2 * Z.of_nat k + 1.
Proof.
  induction n as [|n IH]; intros c k p; [discriminate|].
  destruct k as [|k]; simpl.
  - intros [= <-]. simpl. lia.
  - intros H. apply IH in H. lia.
Qed.

(** C3, as stated, fails near the top of the range of [int]: from the
    counter state [INT_MAX - 1] the first call returns
    [(INT_MAX - 1, INT_MAX)] and the second, after the counter wrapped,
    [(INT_MIN, INT_MIN + 1)], so neither coordinate increases. *)
Lemma C3_counterexample :
  let s := mkState (INT_MAX - 1) [] 0 [] in
  in_int (counter s) /\
  exists p1 s1 p2 s2,
    getPoint s = Ok (p1, s1) /\
    getPoint s1 = Ok (p2, s2) /\
    p1 = mkPoint 2147483646 2147483647 /\
    p2 = mkPoint (-2147483648) (-2147483647) /\
    ~ x p1 < x p2 /\
    ~ y p1 < y p2.
Proof.
  split; [unfold in_int, INT_MIN, INT_MAX; simpl; lia|].
  do 4 eexists. split; [apply getPoint_spec|]. split; [apply getPoint_spec|].
  split; [reflexivity|]. split; [reflexivity|].
  split; intros H; vm_compute in H; discriminate H.
Qed.

(** C3 (amended).  For every state whose counter [c] satisfies
    [c + 3 <= INT_MAX], so that the four values drawn stay in the range of
    [int], two consecutive calls of [getPoint] return [(c, c+1)] and then
    [(c+2, c+3)]: x and y strictly increase.  Each call advances the counter
    by two increments: it is [c + 2] after the first call and, after the
    second, [c + 4] stored as an [int] (which is [c + 4] itself unless
    [c + 3 = INT_MAX]).  From the counter value 0 the calls return [(0,1)]
    and [(2,3)]. *)
Theorem C3_getPoint_twice_strictly_increasing (s : state) :
  INT_MIN <= counter s ->
  counter s + 3 <= INT_MAX ->
  exists p1 s1 p2 s2,
    getPoint s = Ok (p1, s1) /\
    getPoint s1 = Ok (p2, s2) /\
    x p1 < x p2 /\
    y p1 < y p2 /\
    p1 = mkPoint (counter s) (counter s + 1) /\
    p2 = mkPoint (counter s + 2) (counter s + 3) /\
    counter s1 = counter s + 2 /\
    counter s2 = wrap_int (counter s1 + 2) /\
    (counter s + 4 <= INT_MAX -> counter s2 = counter s1 + 2) /\
    (counter s = 0 -> p1 = mkPoint 0 1 /\ p2 = mkPoint 2 3).
Proof.
  intros Hlo Hhi. set (c := counter s) in *.
  pose (s1 := mkState (c + 2) (mem s) (heap_room s)
                (stdout s ++
                   [Printf "Returning Point    (%d, %d)\n" [VInt c; VInt (c + 1)]])).
  pose (s2 := mkState (wrap_int (c + 2 + 2)) (mem s) (heap_room s)
                (stdout s1 ++
                   [Printf "Returning Point    (%d, %d)\n"
                      [VInt (c + 2); VInt (c + 3)]])).
  assert (H1 : getPoint s = Ok (mkPoint c (c + 1), s1)).
  { rewrite getPoint_spec. fold c.
    rewrite (int_incr_succ c), (int_incr_succ (c + 1)) by lia.
    now replace (c + 1 + 1) with (c + 2) by lia. }
  assert (H2 : getPoint s1 = Ok (mkPoint (c + 2) (c + 3), s2)).
  { rewrite getPoint_spec. subst s1 s2. cbn [counter mem heap_room stdout].
    rewrite (int_incr_succ (c + 2)) by lia. unfold int_incr.
    now replace (c + 2 + 1) with (c + 3) by lia;
      replace (c + 3 + 1) with (c + 2 + 2) by lia. }
  exists (mkPoint c (c + 1)), s1, (mkPoint (c + 2) (c + 3)), s2.
  split; [exact H1|]. split; [exact H2|]. cbn [x y counter s1 s2].
  split; [lia|]. split; [lia|]. split; [reflexivity|]. split; [reflexivity|].
  split; [reflexivity|]. split; [reflexivity|]. split.
  - intros Hfit. apply wrap_int_id. unfold in_int. lia.
  - intros Hc. rewrite Hc. split; reflexivity.
Qed.

Lemma C3_getPoint_twice_witness :
  exists p1 s1 p2 s2,
    getPoint (initial_state 0) = Ok (p1, s1) /\
    getPoint s1 = Ok (p2, s2) /\
    p1 = mkPoint 0 1 /\ p2 = mkPoint 2 3.
Proof.
  destruct (C3_getPoint_twice_strictly_increasing (initial_state 0))
    as (p1 & s1 & p2 & s2 & H1 & H2 & _ & _ & _ & _ & _ & _ & _ & H0).
  - unfold INT_MIN. simpl. lia.
  - unfold INT_MAX. simpl. lia.
  - exists p1, s1, p2, s2. split; [exact H1|]. split; [exact H2|].
    apply H0. reflexivity.
Defined.

Lemma wrap_int_even z : Z.even (wrap_int z) = Z.even z.
Proof.
  unfold wrap_int, INT_MIN.
  pose proof (Z.div_mod (z - -2147483648) (2 ^ 32) ltac:(lia)) as H.
  replace ((z - -2147483648) mod 2 ^ 32 + -2147483648)
    with (z + 2 * (- 2 ^ 31 * ((z - -2147483648) / 2 ^ 32))) by lia.
  rewrite Z.even_add_mul_2. reflexivity.
Qed.

Lemma even_below_INT_MAX c : in_int c -> Z.even c = true -> c + 1 <= INT_MAX.
Proof.
  intros [_ Hhi] Heven. destruct (Z.eq_dec c INT_MAX) as [->|Hne].
  - discriminate Heven.
  - lia.
Qed.

(** A sequence of draws whose values stay in the range of [int]; only the
    counter after the last draw may have wrapped. *)
Lemma draws_wrapping fs : forall s,
  in_int (counter s) ->
  counter s + 2 * Z.of_nat (length fs) <= INT_MAX + 1 ->
  (pointers fs <= heap_room s)%nat ->
  exists s',
    draws fs s = Ok (coordinates (counter s) (length fs), s') /\
    counter s' = wrap_int (counter s + 2 * Z.of_nat (length fs)).
Proof.
  induction fs as [|f fs IH]; intros s Hc Hhi Hroom.
  - exists s. split; [reflexivity|]. simpl. now rewrite Z.add_0_r, wrap_int_id.
  - cbn [length] in Hhi. rewrite Nat2Z.inj_succ in Hhi.
    destruct (draw_spec f s) as (s1 & Hdraw & Hc1 & Hr1).
    { intros ->. simpl in Hroom. lia. }
    destruct Hc as [Hlo Hc]. rewrite int_incr_twice in Hc1.
    rewrite (int_incr_succ (counter s)) in Hdraw by lia.
    destruct (IH s1) as (s2 & Hrest & Hc2).
    + rewrite Hc1. apply in_int_wrap.
    + destruct fs as [|f' fs']; cbn [length] in *.
      * pose proof (in_int_wrap (counter s + 2)) as [_ H]. rewrite Hc1. lia.
      * rewrite Hc1, wrap_int_id by (unfold in_int; lia). lia.
    + rewrite Hr1. destruct f; simpl in *; lia.
    + exists s2. split.
      * cbn [draws length coordinates].
        rewrite (bind_Ok _ _ _ _ _ Hdraw), (bind_Ok _ _ _ _ _ Hrest).
        unfold ret. destruct fs as [|f' fs']; [reflexivity|].
        rewrite Hc1, wrap_int_id; [reflexivity|].
        cbn [length] in Hhi. unfold in_int. lia.
      * rewrite Hc2, Hc1, wrap_int_wrap_add. cbn [length]. f_equal. lia.
Qed.

(** C4, as stated, fails at the last counter value before the top of the
    range of [int].  The counter starts at 0 and moves by two, so it is
    even at every call; from [INT_MAX - 1] both functions still produce
    [x = c] and [y = c + 1], but the counter is left at [INT_MIN], not at
    [c + 2], and the next point drawn lies below this one. *)
Lemma C4_counterexample :
  let s := mkState (INT_MAX - 1) [] 1 [] in
  in_int (counter s) /\
  Z.even (counter s) = true /\
  exists s1 s2 s3,
    getPoint s = Ok (mkPoint 2147483646 2147483647, s1) /\
    counter s1 = -2147483648 /\
    counter s1 <> counter s + 2 /\
    getPointPointer s = Ok (Ptr 0, s2) /\
    point_at s2 0%nat = Some (mkPoint 2147483646 2147483647) /\
    counter s2 = -2147483648 /\
    getPoint s1 = Ok (mkPoint (-2147483648) (-2147483647), s3) /\
    -2147483648 < 2147483646.
Proof.
  split; [unfold in_int, INT_MIN, INT_MAX; simpl; lia|].
  split; [reflexivity|].
  do 3 eexists.
  split; [apply getPoint_spec|]. split; [reflexivity|].
  split; [intros H; vm_compute in H; discriminate H|].
  split; [apply (getPointPointer_spec (mkState (INT_MAX - 1) [] 1 []) O eq_refl)|].
  split; [reflexivity|]. split; [reflexivity|].
  split; [apply getPoint_spec|]. lia.
Qed.

(** C4 (amended).  Both functions draw from the one counter, x before y.
    For every value [c] the counter can hold at a call (an even [int]):
    [getPoint] returns [(c, c+1)] and leaves the memory as it was;
    [getPointPointer], when the heap has room, returns the address of a new
    object holding [(c, c+1)] and leaves every older object as it was; both
    leave the counter at [c + 2] stored as an [int], again even, which is
    [c + 2] itself unless [c = INT_MAX - 1], where it is [INT_MIN].  For
    every interleaving [fs] of the two functions whose values stay in the
    range of [int] ([c + 2 * length fs <= INT_MAX + 1]) and with room for
    its allocations, the points obtained are [(c, c+1), (c+2, c+3), ...] in
    the order of the calls. *)
Theorem C4_one_shared_counter (s : state) :
  in_int (counter s) ->
  Z.even (counter s) = true ->
  (exists s',
     getPoint s = Ok (mkPoint (counter s) (counter s + 1), s') /\
     counter s' = wrap_int (counter s + 2) /\
     mem s' = mem s /\
     heap_room s' = heap_room s) /\
  (heap_room s <> O ->
   exists s',
     getPointPointer s = Ok (Ptr (length (mem s)), s') /\
     point_at s' (length (mem s)) = Some (mkPoint (counter s) (counter s + 1)) /\
     counter s' = wrap_int (counter s + 2) /\
     (forall b, (b < length (mem s))%nat -> mem s' !! b = mem s !! b)) /\
  (in_int (wrap_int (counter s + 2)) /\
   Z.even (wrap_int (counter s + 2)) = true /\
   (counter s + 2 <= INT_MAX -> wrap_int (counter s + 2) = counter s + 2) /\
   (counter s = INT_MAX - 1 -> wrap_int (counter s + 2) = INT_MIN)) /\
  (forall fs : list source,
     counter s + 2 * Z.of_nat (length fs) <= INT_MAX + 1 ->
     (pointers fs <= heap_room s)%nat ->
     exists s',
       draws fs s = Ok (coordinates (counter s) (length fs), s') /\
       counter s' = wrap_int (counter s + 2 * Z.of_nat (length fs))).
Proof.
  intros Hc Heven. pose proof (even_below_INT_MAX _ Hc Heven) as Hlt.
  destruct Hc as [Hlo Hhi].
  split; [|split; [|split; [|intros fs Hfs Hroom; apply draws_wrapping; [split|..]; assumption]]].
  - rewrite getPoint_spec, int_incr_twice.
    rewrite (int_incr_succ (counter s)) by lia.
    eexists. split; [reflexivity|]. repeat split.
  - intros Hroom. destruct (heap_room s) as [|n] eqn:E; [now destruct Hroom|].
    rewrite (getPointPointer_spec s n E), int_incr_twice.
    rewrite (int_incr_succ (counter s)) by lia.
    eexists. split; [reflexivity|].
    unfold point_at. simpl.
    rewrite lookup_app_r, Nat.sub_diag by lia. simpl.
    split; [reflexivity|]. split; [reflexivity|].
    intros b Hb. now apply lookup_app_l.
  - split; [apply in_int_wrap|]. split.
    { rewrite wrap_int_even, Z.even_add, Heven. reflexivity. }
    split.
    + intros Hfit. apply wrap_int_id. unfold in_int. lia.
    + intros ->. reflexivity.
Qed.

Lemma C4_one_shared_counter_witness :
  exists s',
    draws [ByValue; ByPointer; ByValue] (initial_state 1) =
      Ok ([mkPoint 0 1; mkPoint 2 3; mkPoint 4 5], s') /\
    counter s' = 6.
Proof.
  destruct (C4_one_shared_counter (initial_state 1)) as (_ & _ & _ & H).
  - unfold in_int, INT_MIN, INT_MAX. simpl. lia.
  - reflexivity.
  - apply (H [ByValue; ByPointer; ByValue]).
    + unfold INT_MAX. simpl. lia.
    + simpl. lia.
Defined.

(** ** Allocation and release *)

Create HintDb released.

Lemma keeps_released_ret {A} (a : A) : keeps_released (ret a).
Proof. intros s a' s' b [= _ <-]. auto. Qed.

Lemma keeps_released_bind {A B} (m : M A) (k : A -> M B) :
  keeps_released m -> (forall a, keeps_released (k a)) -> keeps_released (bind m k).
Proof.
  intros Hm Hk s r s' b Hrun Hb.
  apply bind_inv in Hrun as (a & s1 & H1 & H2).
  apply (Hk a s1 r s' b H2). exact (Hm s a s1 b H1 Hb).
Qed.

Lemma keeps_released_undef {A} u : keeps_released (@undef A u).
Proof. intros s a s' b. discriminate. Qed.

Lemma keeps_released_printf fmt args : keeps_released (printf fmt args).
Proof. intros s [] s' b [= <-] Hb. exact Hb. Qed.

Lemma keeps_released_counter_post_incr : keeps_released counter_post_incr.
Proof. intros s a s' b [= _ <-] Hb. exact Hb. Qed.

Lemma deref_inv a s b o s' :
  deref a s = Ok ((b, o), s') ->
  a = Ptr b /\ s' = s /\ mem s !! b = Some o /\ life o = Allocated.
Proof.
  unfold deref. destruct a as [|b0]; [discriminate|].
  destruct (mem s !! b0) as [o0|] eqn:E; [|discriminate].
  destruct (life o0) eqn:L; [|discriminate].
  intros [= <- <- <-]. auto.
Qed.

Lemma keeps_released_deref a : keeps_released (deref a).
Proof.
  intros s [b0 o] s' b H. apply deref_inv in H as (_ & -> & _). auto.
Qed.

Lemma keeps_released_read_field f a : keeps_released (read_field f a).
Proof.
  unfold read_field. apply keeps_released_bind; [apply keeps_released_deref|].
  intros [b o]. simpl. destruct (f o);
    [apply keeps_released_ret | apply keeps_released_undef].
Qed.

Lemma keeps_released_write_field w a z :
  (forall z o, life (w z o) = life o) -> keeps_released (write_field w a z).
Proof.
  intros Hw s r s' b Hrun Hb. unfold write_field in Hrun.
  apply bind_inv in Hrun as ([b0 o] & s1 & H1 & H2).
  apply deref_inv in H1 as (_ & -> & Ho & Hlive).
  injection H2 as _ <-. unfold life_at in *. simpl.
  destruct (decide (b0 = b)) as [->|Hne].
  - rewrite Ho in Hb. simpl in Hb. congruence.
  - now rewrite list_lookup_insert_ne.
Qed.

Lemma keeps_released_malloc_Point : keeps_released malloc_Point.
Proof.
  intros s a s' b Hrun Hb. unfold malloc_Point in Hrun.
  destruct (heap_room s); injection Hrun as _ <-; [assumption|].
  unfold life_at in *. simpl.
  destruct (mem s !! b) as [o|] eqn:E; [|discriminate].
  now rewrite (lookup_app_l_Some _ _ _ _ E).
Qed.

Lemma keeps_released_free a : keeps_released (free a).
Proof.
  intros s r s' b Hrun Hb. unfold free in Hrun.
  destruct a as [|b0]; [injection Hrun as _ <-; assumption|].
  destruct (mem s !! b0) as [o|] eqn:E; [|discriminate].
  destruct (origin o); [discriminate|].
  destruct (life o) eqn:L; [|discriminate].
  injection Hrun as _ <-. unfold life_at in *. simpl.
  destruct (decide (b0 = b)) as [->|Hne].
  - rewrite list_lookup_insert_eq by (now apply lookup_lt_Some in E). reflexivity.
  - now rewrite list_lookup_insert_ne.
Qed.

#[local] Hint Resolve keeps_released_ret keeps_released_bind keeps_released_undef
  keeps_released_printf keeps_released_counter_post_incr keeps_released_deref
  keeps_released_read_field keeps_released_write_field
  keeps_released_malloc_Point keeps_released_free : released.



Lemma freePointPointer_spec s b vx vy :
  mem s !! b = Some (mkObject Malloced Allocated (Some vx) (Some vy)) ->
  freePointPointer (Ptr b) s =
    Ok (tt, mkState (counter s)
              (<[b := mkObject Malloced Released (Some vx) (Some vy)]> (mem s))
              (S (heap_room s))
              (stdout s ++
                 [Printf "Freeing Point      (%d, %d) at %p\n"
                    [VInt vx; VInt vy; VPtr (Ptr b)]])).
Proof.
  intros Hb. unfold freePointPointer, load_x, load_y.
  rewrite (bind_Ok _ _ _ _ _ (read_field_live s b _ Hb eq_refl obj_x _ eq_refl)).
  rewrite (bind_Ok _ _ _ _ _ (read_field_live s b _ Hb eq_refl obj_y _ eq_refl)).
  unfold bind, printf, free. simpl. rewrite Hb. reflexivity.
Qed.

Lemma freePointPointer_released s b :
  life_at s b = Some Released ->
  freePointPointer (Ptr b) s = Undef UseAfterFree.
Proof.
  intros H. unfold freePointPointer, load_x, read_field, bind.
  now rewrite (deref_released s b H).
Qed.

Lemma freePointPointer_inv a s s' :
  freePointPointer a s = Ok (tt, s') ->
  exists b vx vy,
    a = Ptr b /\
    mem s !! b = Some (mkObject Malloced Allocated (Some vx) (Some vy)).
Proof.
  unfold freePointPointer, load_x, load_y, read_field, bind, deref.
  destruct a as [|b]; [discriminate|].
  destruct (mem s !! b) as [[g l ox oy]|] eqn:E; [|discriminate]. simpl.
  destruct l; [|discriminate]. simpl.
  destruct ox as [vx|]; [|discriminate]. simpl. rewrite E. simpl.
  destruct oy as [vy|]; [|discriminate]. simpl.
  unfold free. simpl. rewrite E. simpl.
  destruct g; [discriminate|]. intros _. eauto.
Qed.

(** C9.  [freePointPointer] reads both fields through its argument before
    it frees it.  On the null pointer it is undefined (a null dereference),
    whereas [free] itself accepts the null pointer and does nothing.
    Whenever a call returns normally, its argument pointed to a live object
    from [malloc] with both fields initialised, the line displayed carries
    the two values read, and the object is released afterwards. *)
Theorem C9_freePointPointer_needs_live_storage (a : ptr) (s : state) :
  (freePointPointer NULL s = Undef NullDeref /\ free NULL s = Ok (tt, s)) /\
  forall s',
    freePointPointer a s = Ok (tt, s') ->
    exists b vx vy,
      a = Ptr b /\
      mem s !! b = Some (mkObject Malloced Allocated (Some vx) (Some vy)) /\
      point_at s b = Some (mkPoint vx vy) /\
      stdout s' =
        stdout s ++
          [Printf "Freeing Point      (%d, %d) at %p\n"
             [VInt vx; VInt vy; VPtr a]] /\
      life_at s' b = Some Released.
Proof.
  split; [split; reflexivity|].
  intros s' Hrun.
  destruct (freePointPointer_inv _ _ _ Hrun) as (b & vx & vy & -> & Hb).
  rewrite (freePointPointer_spec s b vx vy Hb) in Hrun. injection Hrun as <-.
  exists b, vx, vy. split; [reflexivity|]. split; [exact Hb|].
  unfold point_at, life_at. rewrite Hb. simpl.
  rewrite list_lookup_insert_eq by (now apply lookup_lt_Some in Hb).
  repeat split.
Qed.

Lemma C9_freePointPointer_witness :
  let s := mkState 2 [mkObject Malloced Allocated (Some 0) (Some 1)] 0 [] in
  exists b vx vy,
    Ptr 0 = Ptr b /\
    mem s !! b = Some (mkObject Malloced Allocated (Some vx) (Some vy)).
Proof.
  intros s.
  destruct (C9_freePointPointer_needs_live_storage (Ptr 0) s) as [_ H].
  destruct (H (mkState 2 [mkObject Malloced Released (Some 0) (Some 1)] 1
                 [Printf "Freeing Point      (%d, %d) at %p\n"
                    [VInt 0; VInt 1; VPtr (Ptr 0)]]))
    as (b & vx & vy & Ha & Hb & _).
  - reflexivity.
  - exists b, vx, vy. split; assumption.
Defined.

(** ** The string function *)

Lemma add_one_loop_step fuel ii input :
  add_one_loop (S fuel) ii input =
    match strlen input with
    | None => Undef OutOfBounds
    | Some n =>
        if to_size_t ii <? Z.of_nat n then
          if ii <? 0 then Undef OutOfBounds
          else match input !! Z.to_nat ii with
               | None => Undef OutOfBounds
               | Some c =>
                   add_one_loop fuel (int_incr ii)
                     (<[Z.to_nat ii := char_incr c]> input)
               end
        else Ok input
    end.
Proof. reflexivity. Qed.

Lemma is_NUL_true c : is_NUL c = true <-> c = NUL.
Proof. unfold is_NUL. apply Ascii.eqb_eq. Qed.

Lemma is_NUL_false c : is_NUL c = false <-> c <> NUL.
Proof. unfold is_NUL. apply Ascii.eqb_neq. Qed.

(** [strlen] finds the first NUL. *)
Lemma strlen_Some l : forall n,
  strlen l = Some n ->
  l !! n = Some NUL /\
  forall i, (i < n)%nat -> exists c, l !! i = Some c /\ c <> NUL.
Proof.
  induction l as [|c l IH]; intros n; simpl; [discriminate|].
  destruct (is_NUL c) eqn:Hc.
  - intros [= <-]. apply is_NUL_true in Hc as ->. split; [reflexivity|lia].
  - destruct (strlen l) as [m|]; simpl; [|discriminate].
    intros [= <-]. destruct (IH m eq_refl) as [H0 Hlt]. split; [exact H0|].
    intros [|i] Hi; simpl.
    + exists c. split; [reflexivity|]. now apply is_NUL_false.
    + apply Hlt. lia.
Qed.

Lemma strlen_lt_length l n : strlen l = Some n -> (n < length l)%nat.
Proof.
  intros H. apply strlen_Some in H as [H _]. now apply lookup_lt_Some in H.
Qed.

Lemma strlen_terminated pre post :
  Forall (fun c => c <> NUL) pre ->
  strlen (pre ++ NUL :: post) = Some (length pre).
Proof.
  induction 1 as [|c pre Hc _ IH]; simpl; [reflexivity|].
  apply is_NUL_false in Hc. now rewrite Hc, IH.
Qed.

(** A write before the first NUL cannot move the first NUL further away. *)
Lemma strlen_insert l : forall n k c,
  strlen l = Some n -> (k < n)%nat ->
  exists n', strlen (<[k := c]> l) = Some n' /\ (n' <= n)%nat.
Proof.
  induction l as [|c0 l IH]; intros n k c; simpl; [discriminate|].
  destruct (is_NUL c0) eqn:Hc0.
  - intros [= <-]. lia.
  - destruct (strlen l) as [m|] eqn:E; simpl; [|discriminate].
    intros [= <-] Hk. destruct k as [|k]; simpl.
    + destruct (is_NUL c); [exists O; split; [reflexivity|lia]|].
      rewrite E. simpl. eauto.
    + rewrite Hc0. destruct (IH m k c eq_refl ltac:(lia)) as (n' & -> & Hn').
      simpl. exists (S n'). split; [reflexivity|lia].
Qed.

Lemma to_size_t_nonneg ii : 0 <= ii -> in_int ii -> to_size_t ii = ii.
Proof.
  unfold in_int, INT_MAX, to_size_t. intros H0 [_ H1]. apply Z.mod_small. lia.
Qed.

Lemma to_size_t_neg ii : ii < 0 -> in_int ii -> PTRDIFF_MAX < to_size_t ii.
Proof.
  unfold in_int, INT_MIN, to_size_t, PTRDIFF_MAX. intros H0 [H1 _].
  replace ii with (ii + 2 ^ 64 + (-1) * 2 ^ 64) by lia.
  rewrite Z.mod_add by lia. rewrite Z.mod_small by lia. lia.
Qed.

(** One iteration that enters the body: where it writes and what it
    leaves to the next iteration. *)
Lemma loop_body ii input n :
  strlen input = Some n -> in_int ii ->
  (to_size_t ii <? Z.of_nat n) = true -> (ii <? 0) = false ->
  exists c,
    input !! Z.to_nat ii = Some c /\ (Z.to_nat ii < n)%nat.
Proof.
  intros Hn Hint Hcond Hneg.
  apply Z.ltb_lt in Hcond. apply Z.ltb_ge in Hneg.
  rewrite to_size_t_nonneg in Hcond by assumption.
  assert (Hk : (Z.to_nat ii < n)%nat) by lia.
  destruct (strlen_Some _ _ Hn) as [_ Hlt].
  destruct (Hlt _ Hk) as (c & Hc & _). eauto.
Qed.

(** The loop writes only before the first NUL of the buffer it starts
    from, and keeps the length of the buffer. *)
Lemma add_one_loop_frame fuel : forall ii input r n,
  in_int ii ->
  add_one_loop fuel ii input = Ok r ->
  strlen input = Some n ->
  length r = length input /\
  forall i, (n <= i)%nat -> r !! i = input !! i.
Proof.
  induction fuel as [|fuel IH]; intros ii input r n Hint; [discriminate|].
  rewrite add_one_loop_step. intros Hrun Hn. rewrite Hn in Hrun.
  destruct (to_size_t ii <? Z.of_nat n) eqn:Hcond.
  2:{ injection Hrun as <-. auto. }
  destruct (ii <? 0) eqn:Hneg; [discriminate|].
  destruct (loop_body _ _ _ Hn Hint Hcond Hneg) as (c & Hc & Hk).
  rewrite Hc in Hrun.
  destruct (strlen_insert _ _ _ (char_incr c) Hn Hk) as (n' & Hn' & Hle).
  destruct (IH _ _ _ _ (in_int_wrap _) Hrun Hn') as [Hlen Hframe].
  rewrite length_insert in Hlen. split; [exact Hlen|].
  intros i Hi. rewrite Hframe by lia. apply list_lookup_insert_ne. lia.
Qed.

(** The bound on the iterations is never reached. *)
Lemma add_one_loop_fuel fuel : forall ii input,
  in_int ii ->
  (1 <= fuel)%nat ->
  (0 <= ii -> Z.of_nat (length input) - ii < Z.of_nat fuel) ->
  add_one_loop fuel ii input <> OutOfFuel.
Proof.
  induction fuel as [|fuel IH]; intros ii input Hint Hpos Hfuel; [lia|].
  rewrite add_one_loop_step.
  destruct (strlen input) as [n|] eqn:Hn; [|discriminate].
  destruct (to_size_t ii <? Z.of_nat n) eqn:Hcond; [|discriminate].
  destruct (ii <? 0) eqn:Hneg; [discriminate|].
  destruct (loop_body _ _ _ Hn Hint Hcond Hneg) as (c & Hc & Hk).
  rewrite Hc. pose proof (strlen_lt_length _ _ Hn) as Hlen.
  apply Z.ltb_ge in Hneg.
  apply IH.
  - apply in_int_wrap.
  - lia.
  - rewrite length_insert. intros Hnext.
    destruct (Z.eq_dec ii INT_MAX) as [->|Hne].
    + rewrite int_incr_max in Hnext. unfold INT_MIN in Hnext. lia.
    + rewrite int_incr_succ; unfold in_int, INT_MIN, INT_MAX in *; lia.
Qed.

(** On a terminated buffer that fits an object, the loop returns. *)
Lemma add_one_loop_returns fuel : forall ii input n,
  in_int ii ->
  strlen input = Some n ->
  Z.of_nat n <= PTRDIFF_MAX ->
  (1 <= fuel)%nat ->
  (0 <= ii -> Z.of_nat n - ii < Z.of_nat fuel) ->
  exists r, add_one_loop fuel ii input = Ok r.
Proof.
  induction fuel as [|fuel IH]; intros ii input n Hint Hn Hfit Hpos Hfuel; [lia|].
  rewrite add_one_loop_step, Hn.
  destruct (to_size_t ii <? Z.of_nat n) eqn:Hcond; [|eauto].
  destruct (ii <? 0) eqn:Hneg.
  { apply Z.ltb_lt in Hcond, Hneg.
    pose proof (to_size_t_neg ii Hneg Hint). lia. }
  destruct (loop_body _ _ _ Hn Hint Hcond Hneg) as (c & Hc & Hk).
  rewrite Hc. apply Z.ltb_ge in Hneg.
  destruct (strlen_insert _ _ _ (char_incr c) Hn Hk) as (n' & Hn' & Hle).
  apply (IH _ _ n').
  - apply in_int_wrap.
  - exact Hn'.
  - lia.
  - lia.
  - intros Hnext.
    destruct (Z.eq_dec ii INT_MAX) as [->|Hne].
    + rewrite int_incr_max in Hnext. unfold INT_MIN in Hnext. lia.
    + rewrite int_incr_succ; unfold in_int, INT_MIN, INT_MAX in *; lia.
Qed.

Lemma in_int_0 : in_int 0.
Proof. unfold in_int, INT_MIN, INT_MAX. lia. Qed.

(** C10.  For every buffer [pre ++ NUL :: post] whose first zero byte is
    the one after [pre]: the call never exhausts its iteration bound;
    whenever it returns, the buffer it leaves is [pre' ++ NUL :: post] with
    [pre'] as long as [pre], so the terminator and all bytes after it are
    unchanged and only bytes strictly before it can differ; and it does
    return when the text fits an object. *)
Theorem C10_add_one_to_string_frame (pre post : list ascii) :
  Forall (fun c => c <> NUL) pre ->
  add_one_to_string (pre ++ NUL :: post) <> OutOfFuel /\
  (forall r,
     add_one_to_string (pre ++ NUL :: post) = Ok r ->
     exists pre', r = pre' ++ NUL :: post /\ length pre' = length pre) /\
  (Z.of_nat (length pre) <= PTRDIFF_MAX ->
   exists pre',
     add_one_to_string (pre ++ NUL :: post) = Ok (pre' ++ NUL :: post) /\
     length pre' = length pre).
Proof.
  intros Hpre. pose proof (strlen_terminated pre post Hpre) as Hn.
  set (input := pre ++ NUL :: post) in *.
  assert (Hframe : forall r,
    add_one_to_string input = Ok r ->
    exists pre', r = pre' ++ NUL :: post /\ length pre' = length pre).
  { intros r Hrun.
    destruct (add_one_loop_frame _ _ _ _ _ in_int_0 Hrun Hn) as [Hlen Hsame].
    pose proof (strlen_lt_length _ _ Hn) as Hlt.
    exists (take (length pre) r). split.
    - rewrite <- (take_drop (length pre) r) at 1. f_equal.
      apply list_eq. intros i. rewrite lookup_drop, Hsame by lia.
      subst input. rewrite lookup_app_r by lia. f_equal. lia.
    - rewrite length_take. lia. }
  split; [|split].
  - apply add_one_loop_fuel; [apply in_int_0 | lia | lia].
  - exact Hframe.
  - intros Hfit.
    destruct (add_one_loop_returns (S (length input)) 0 input (length pre))
      as [r Hr]; [apply in_int_0 | exact Hn | exact Hfit | lia | |].
    + pose proof (strlen_lt_length _ _ Hn). lia.
    + destruct (Hframe r Hr) as (pre' & -> & Hlen). eauto.
Qed.

Lemma C10_add_one_to_string_witness :
  exists pre',
    add_one_to_string (["a"; "b"] ++ NUL :: ["c"; "d"])%char =
      Ok (pre' ++ NUL :: ["c"; "d"])%char /\
    length pre' = 2%nat.
Proof.
  destruct (C10_add_one_to_string_frame ["a"; "b"]%char ["c"; "d"]%char)
    as (_ & _ & H).
  - repeat constructor; discriminate.
  - apply H. unfold PTRDIFF_MAX. simpl. lia.
Defined.

(** ** The calls from Python *)

Lemma add_one_to_string_one_char c rest :
  add_one_to_string (c :: NUL :: rest) =
    Ok ((if is_NUL c then c else char_incr c) :: NUL :: rest).
Proof.
  unfold add_one_to_string. cbn [length].
  rewrite add_one_loop_step. cbn [strlen].
  destruct (is_NUL c) eqn:Hc; [reflexivity|].
  change (is_NUL NUL) with true. cbn [fmap option_fmap option_map].
  change (to_size_t 0 <? Z.of_nat 1) with true.
  change (0 <? 0) with false. cbv iota.
  change ((c :: NUL :: rest) !! Z.to_nat 0) with (Some c). cbv beta iota.
  change (<[Z.to_nat 0 := char_incr c]> (c :: NUL :: rest))
    with (char_incr c :: NUL :: rest).
  change (int_incr 0) with 1.
  rewrite add_one_loop_step. cbn [strlen].
  change (is_NUL NUL) with true. cbn [fmap option_fmap option_map].
  destruct (is_NUL (char_incr c)); reflexivity.
Qed.

(** C7.  The text "staring string", held by the host as an immutable [str],
    is encoded and copied into a new string buffer, and the buffer is passed
    to [add_one_to_string].  The call returns; the bytes of the buffer before
    its terminator are then those of "tubsjoh!tusjoh", which are the bytes
    of the text each incremented by one; the text object, and every other
    object of the host, is unchanged. *)
Theorem C7_mutable_buffer_is_incremented (h : host) (r : nat) :
  h !! r = Some (PyStr "staring string") ->
  let original := str_encode "staring string" in
  let '(b, h1) := create_string_buffer original h in
  exists h2 raw,
    libc_add_one_to_string b h1 = inr (Ok (h2, raw)) /\
    h2 !! b = Some (PyStringBuffer raw) /\
    buffer_value raw = str_encode "tubsjoh!tusjoh" /\
    buffer_value raw = map char_incr original /\
    raw = map char_incr original ++ [NUL] /\
    h2 !! r = Some (PyStr "staring string") /\
    (forall i, i <> b -> h2 !! i = h1 !! i).
Proof.
  intros Hr. pose proof (lookup_lt_Some _ _ _ Hr) as Hlt.
  intros original. unfold create_string_buffer. cbv beta iota.
  set (result := str_encode "tubsjoh!tusjoh" ++ [NUL]).
  assert (Hres : add_one_to_string (original ++ [NUL]) = Ok result)
    by (vm_compute; reflexivity).
  exists (h ++ [PyStringBuffer result]), result. split.
  { unfold libc_add_one_to_string.
    rewrite lookup_app_r, Nat.sub_diag by lia. cbn [lookup list_lookup].
    rewrite Hres, insert_app_r_alt, Nat.sub_diag by lia. reflexivity. }
  split. { now rewrite lookup_app_r, Nat.sub_diag by lia. }
  split; [reflexivity|]. split; [reflexivity|]. split; [reflexivity|].
  split. { now apply lookup_app_l_Some. }
  intros i Hi. destruct (decide (i < length h)%nat) as [Hin|Hout].
  - now rewrite !lookup_app_l by lia.
  - rewrite !lookup_app_r by lia.
    destruct (i - length h)%nat as [|k] eqn:E; [lia|reflexivity].
Qed.

Lemma C7_mutable_buffer_witness :
  exists h2 raw,
    libc_add_one_to_string 1
      [PyStr "staring string";
       PyStringBuffer (str_encode "staring string" ++ [NUL])] =
      inr (Ok (h2, raw)) /\
    h2 !! 1%nat = Some (PyStringBuffer raw) /\
    buffer_value raw = str_encode "tubsjoh!tusjoh" /\
    h2 !! 0%nat = Some (PyStr "staring string").
Proof.
  destruct (C7_mutable_buffer_is_incremented [PyStr "staring string"] 0 eq_refl)
    as (h2 & raw & Hcall & Hb & Hval & _ & _ & Hr & _).
  exists h2, raw. repeat split; assumption.
Defined.

(** The loop leaves the bytes below its index as they are. *)
Lemma add_one_loop_below fuel : forall ii input r,
  in_int ii ->
  add_one_loop fuel ii input = Ok r ->
  (ii < 0 -> r = input) /\
  (forall i, Z.of_nat i < ii -> r !! i = input !! i).
Proof.
  induction fuel as [|fuel IH]; intros ii input r Hint; [discriminate|].
  rewrite add_one_loop_step. intros Hrun.
  destruct (strlen input) as [n|] eqn:Hn; [|discriminate].
  destruct (to_size_t ii <? Z.of_nat n) eqn:Hcond.
  2:{ injection Hrun as <-. auto. }
  destruct (ii <? 0) eqn:Hneg; [discriminate|].
  destruct (loop_body _ _ _ Hn Hint Hcond Hneg) as (c & Hc & Hk).
  rewrite Hc in Hrun. apply Z.ltb_ge in Hneg.
  destruct (IH _ _ _ (in_int_wrap _) Hrun) as [Hwrapped Hbelow].
  split; [lia|]. intros i Hi.
  destruct (Z.eq_dec ii INT_MAX) as [Heq|Hne].
  - assert (Hw : int_incr ii < 0) by (rewrite Heq; reflexivity).
    rewrite (Hwrapped Hw). apply list_lookup_insert_ne. lia.
  - assert (Hnext : int_incr ii = ii + 1)
      by (apply int_incr_succ; unfold in_int, INT_MIN, INT_MAX in *; lia).
    rewrite Hbelow by (change (Z.of_nat i < int_incr ii); lia).
    apply list_lookup_insert_ne. lia.
Qed.

(** The array of wide characters of a text: the fourth byte is zero. *)
Lemma as_wide_char_string_shape (s : str) :
  Forall (fun c => (c < 1114112)%N) s ->
  exists b1 b2 rest,
    as_wide_char_string s =
      ascii_of_N (hd 0%N s mod 256) :: b1 :: b2 :: NUL :: rest.
Proof.
  intros Hs. destruct s as [|c t].
  - exists NUL, NUL, []. reflexivity.
  - apply Forall_cons in Hs as [Hc _].
    unfold as_wide_char_string. cbn [flat_map wchar app hd].
    rewrite (N.div_small c 16777216) by lia.
    change (ascii_of_N (0 mod 256)) with NUL. eauto.
Qed.

(** [add_one_to_string] on an array whose fourth byte is zero: it returns,
    changes at most the first three bytes, and increments the first byte
    unless that is zero, in which case it changes nothing. *)
Lemma add_one_to_string_short b0 b1 b2 rest :
  let input := b0 :: b1 :: b2 :: NUL :: rest in
  exists tmp,
    add_one_to_string input = Ok tmp /\
    length tmp = length input /\
    (forall i, (3 <= i)%nat -> tmp !! i = input !! i) /\
    (b0 <> NUL -> tmp !! 0%nat = Some (char_incr b0)) /\
    (b0 = NUL -> tmp = input).
Proof.
  intros input.
  assert (Hn : exists n, strlen input = Some n /\ (n <= 3)%nat).
  { subst input. cbn [strlen]. change (is_NUL NUL) with true.
    destruct (is_NUL b0); [exists 0%nat; split; [reflexivity|lia]|].
    destruct (is_NUL b1); [exists 1%nat; split; [reflexivity|lia]|].
    destruct (is_NUL b2); [exists 2%nat|exists 3%nat]; split; (reflexivity || lia). }
  destruct Hn as (n & Hn & Hle).
  destruct (add_one_loop_returns (S (length input)) 0 input n)
    as [tmp Hrun]; [apply in_int_0 | exact Hn | unfold PTRDIFF_MAX; lia | lia | |].
  { pose proof (strlen_lt_length _ _ Hn). lia. }
  exists tmp. split; [exact Hrun|].
  destruct (add_one_loop_frame _ _ _ _ _ in_int_0 Hrun Hn) as [Hlen Hsame].
  split; [exact Hlen|]. split; [intros i Hi; apply Hsame; lia|].
  rewrite add_one_loop_step, Hn in Hrun. split.
  - intros Hb0. apply is_NUL_false in Hb0.
    assert (Hpos : (0 < n)%nat).
    { subst input. cbn [strlen] in Hn. rewrite Hb0 in Hn.
      destruct (if is_NUL b1 then _ else _); [|discriminate].
      injection Hn as <-. lia. }
    replace (to_size_t 0 <? Z.of_nat n) with true in Hrun
      by (symmetry; apply Z.ltb_lt; change (to_size_t 0) with 0; lia).
    change (0 <? 0) with false in Hrun. cbv iota in Hrun.
    subst input. cbn [Z.to_nat lookup list_lookup insert list_insert] in Hrun.
    destruct (add_one_loop_below _ _ _ _ (in_int_wrap _) Hrun) as [_ Hbelow].
    rewrite (Hbelow 0%nat) by reflexivity. reflexivity.
  - intros ->. subst input. cbn [strlen] in Hn. change (is_NUL NUL) with true in Hn.
    injection Hn as <-. change (to_size_t 0 <? Z.of_nat 0) with false in Hrun.
    now injection Hrun as <-.
Qed.

(** C2, as stated, fails on the call of the article: passing the [str]
    "staring string" directly is not refused.  The call returns, the host is
    as before, and the native function has incremented the first byte of the
    temporary it was given. *)
Lemma C2_counterexample :
  let h := [PyStr "staring string"] in
  exists tmp,
    libc_add_one_to_string 0 h = inr (Ok (h, tmp)) /\
    libc_add_one_to_string 0 h <> inl (Boundary ClassificationError) /\
    as_wide_char_string "staring string" !! 0%nat = Some "s"%char /\
    tmp !! 0%nat = Some "t"%char.
Proof.
  eexists. split; [vm_compute; reflexivity|].
  split; [discriminate|]. split; reflexivity.
Qed.

(** C2 (amended).  Passing an immutable [str] directly to
    [add_one_to_string] is never rejected with a ClassificationError.  ctypes
    refuses a text that contains the code point 0, with its ArgumentError
    and before the native function runs.  For every other text the native
    function is executed on a temporary wide-character copy and the call
    returns normally with every object of the host, the text among them,
    unchanged; of the copy the function leaves all but the first three
    bytes as they were, increments the first byte when the low byte of the
    first code point is not zero, and changes nothing when that byte is
    zero or the text is empty. *)
Theorem C2_immutable_text_is_not_rejected (h : host) (r : nat) (s : str) :
  h !! r = Some (PyStr s) ->
  Forall (fun c => (c < 1114112)%N) s ->
  libc_add_one_to_string r h <> inl (Boundary ClassificationError) /\
  (In 0%N s -> libc_add_one_to_string r h = inl ArgumentError) /\
  (~ In 0%N s ->
   exists tmp,
     libc_add_one_to_string r h = inr (Ok (h, tmp)) /\
     add_one_to_string (as_wide_char_string s) = Ok tmp /\
     length tmp = length (as_wide_char_string s) /\
     (forall i, (3 <= i)%nat -> tmp !! i = as_wide_char_string s !! i) /\
     ((hd 0 s mod 256 <> 0)%N ->
      tmp !! 0%nat = Some (char_incr (ascii_of_N (hd 0%N s mod 256)))) /\
     ((hd 0 s mod 256 = 0)%N -> tmp = as_wide_char_string s)).
Proof.
  intros Hr Hcp. unfold libc_add_one_to_string. rewrite Hr.
  destruct (as_wide_char_string_shape s Hcp) as (b1 & b2 & rest & Hshape).
  destruct (add_one_to_string_short (ascii_of_N (hd 0%N s mod 256)) b1 b2 rest)
    as (tmp & Hrun & Hlen & Hframe & Hfirst & Hzero).
  rewrite <- Hshape in Hrun, Hlen, Hframe, Hzero.
  assert (Hbyte : (hd 0 s mod 256 = 0)%N <-> ascii_of_N (hd 0%N s mod 256) = NUL).
  { split; [now intros ->|]. intros H.
    apply (f_equal N_of_ascii) in H. rewrite N_ascii_embedding in H; [exact H|].
    apply N.mod_lt. lia. }
  destruct (existsb (N.eqb 0) s) eqn:E.
  - apply existsb_exists in E as (z & Hin & Hz). apply N.eqb_eq in Hz. subst z.
    split; [discriminate|]. split; [reflexivity|]. now intros [].
  - assert (Hno : ~ In 0%N s).
    { intros Hin. apply (proj2 (not_true_iff_false _) E).
      apply existsb_exists. exists 0%N. split; [exact Hin|reflexivity]. }
    rewrite Hrun. split; [discriminate|]. split; [now intros ?|].
    intros _. exists tmp. split; [reflexivity|]. split; [reflexivity|].
    split; [exact Hlen|]. split; [exact Hframe|]. split.
    + intros Hnz. apply Hfirst. intros H. apply Hbyte in H. contradiction.
    + intros Hz. apply Hzero. now apply Hbyte.
Qed.

Lemma C2_immutable_text_witness :
  exists tmp,
    libc_add_one_to_string 0 [PyStr "staring string"] =
      inr (Ok ([PyStr "staring string"], tmp)) /\
    tmp !! 0%nat = Some "t"%char.
Proof.
  destruct (C2_immutable_text_is_not_rejected
              [PyStr "staring string"] 0 "staring string" eq_refl)
    as (_ & _ & Hrun).
  - repeat constructor.
  - destruct Hrun as (tmp & Hcall & _ & _ & _ & Hfirst & _).
    + vm_compute. intros H. repeat (destruct H as [H|H]; [discriminate H|]).
      exact H.
    + exists tmp. split; [exact Hcall|]. apply Hfirst. discriminate.
Defined.

(** * Further properties of the Point library *)

Lemma showPointRef_inv a s r :
  showPointRef a s = Ok r -> exists b p, a = Ptr b /\ point_at s b = Some p.
Proof.
  unfold showPointRef, load_x, load_y, read_field, bind, deref.
  destruct a as [|b]; [discriminate|].
  destruct (mem s !! b) as [[g l ox oy]|] eqn:E; [|discriminate]. simpl.
  destruct l; [|discriminate]. simpl.
  destruct ox as [vx|]; [|discriminate]. simpl. rewrite E. simpl.
  destruct oy as [vy|]; [|discriminate]. intros _.
  exists b, (mkPoint vx vy). split; [reflexivity|].
  unfold point_at. now rewrite E.
Qed.

Lemma movePointRef_inv a s r :
  movePointRef a s = Ok r ->
  exists b g vx vy,
    a = Ptr b /\ mem s !! b = Some (mkObject g Allocated (Some vx) (Some vy)).
Proof.
  intros H.
  destruct a as [|b]; [discriminate H|].
  destruct (mem s !! b) as [[g l ox oy]|] eqn:E.
  - destruct l, ox as [vx|], oy as [vy|];
      try (exfalso; revert H;
           unfold movePointRef, load_x, load_y, read_field, bind, deref;
           simpl; rewrite ?E; simpl; rewrite ?E; simpl; discriminate).
    exists b, g, vx, vy. auto.
  - exfalso; revert H.
    unfold movePointRef, load_x, load_y, read_field, bind, deref.
    simpl. rewrite E. discriminate.
Qed.

Lemma getPointPointer_inv s r :
  getPointPointer s = Ok r -> exists n, heap_room s = S n.
Proof.
  destruct (heap_room s) as [|n] eqn:E; [|eauto].
  now rewrite (getPointPointer_no_room s E).
Qed.

(** What a call that returns has done to the state. *)
Lemma exec_inv c s s' :
  exec c s = Ok (tt, s') ->
  match c with
  | CallShowPoint p =>
      s' = set_stdout
             (stdout s ++ [Printf "Point in C      is (%d, %d)\n"
                             [VInt (x p); VInt (y p)]]) s
  | CallShowPointRef a =>
      exists b p,
        a = Ptr b /\ point_at s b = Some p /\
        s' = set_stdout
               (stdout s ++ [Printf "Point in C      is (%d, %d)\n"
                               [VInt (x p); VInt (y p)]]) s
  | CallMovePoint p =>
      s' = set_stdout
             (stdout s ++
                [Printf "Point in C      is (%d, %d)\n" [VInt (x p); VInt (y p)];
                 Printf "Point in C      is (%d, %d)\n"
                   [VInt (int_incr (x p)); VInt (int_incr (y p))]]) s
  | CallMovePointRef a =>
      exists b g vx vy,
        a = Ptr b /\
        mem s !! b = Some (mkObject g Allocated (Some vx) (Some vy)) /\
        s' = set_stdout
               (stdout s ++
                  [Printf "Point in C      is (%d, %d)\n" [VInt vx; VInt vy];
                   Printf "New point in C  is (%d, %d)\n"
                     [VInt (int_incr vx); VInt (int_incr vy)]])
               (set_mem (<[b := mkObject g Allocated (Some (int_incr vx))
                                   (Some (int_incr vy))]> (mem s)) s)
  | CallGetPoint =>
      s' = mkState (int_incr (int_incr (counter s))) (mem s) (heap_room s)
             (stdout s ++
                [Printf "Returning Point    (%d, %d)\n"
                   [VInt (counter s); VInt (int_incr (counter s))]])
  | CallGetPointPointer =>
      exists n,
        heap_room s = S n /\
        s' = mkState (int_incr (int_incr (counter s)))
               (mem s ++ [mkObject Malloced Allocated
                            (Some (counter s)) (Some (int_incr (counter s)))])
               n
               (stdout s ++
                  [Printf "Returning Point    (%d, %d) at %p\n"
                     [VInt (counter s); VInt (int_incr (counter s));
                      VPtr (Ptr (length (mem s)))]])
  | CallFreePointPointer a =>
      exists b vx vy,
        a = Ptr b /\
        mem s !! b = Some (mkObject Malloced Allocated (Some vx) (Some vy)) /\
        s' = mkState (counter s)
               (<[b := mkObject Malloced Released (Some vx) (Some vy)]> (mem s))
               (S (heap_room s))
               (stdout s ++
                  [Printf "Freeing Point      (%d, %d) at %p\n"
                     [VInt vx; VInt vy; VPtr (Ptr b)]])
  end.
Proof.
  destruct c as [p|a|p|a| | |a]; simpl; intros Hrun.
  - rewrite showPoint_spec in Hrun. now injection Hrun as <-.
  - destruct (showPointRef_inv _ _ _ Hrun) as (b & p & -> & Hp).
    rewrite (showPointRef_spec _ _ _ Hp), showPoint_spec in Hrun.
    injection Hrun as <-. eauto.
  - rewrite movePoint_spec in Hrun. now injection Hrun as <-.
  - destruct (movePointRef_inv _ _ _ Hrun) as (b & g & vx & vy & -> & Hb).
    rewrite (movePointRef_spec _ _ _ _ _ Hb) in Hrun.
    injection Hrun as <-. eauto 8.
  - unfold bind in Hrun. rewrite getPoint_spec in Hrun. now injection Hrun as <-.
  - unfold bind in Hrun.
    destruct (getPointPointer s) as [[a s1]| |] eqn:E; try discriminate.
    destruct (getPointPointer_inv _ _ E) as [n Hn].
    rewrite (getPointPointer_spec s n Hn) in E. injection E as <- <-.
    injection Hrun as <-. eauto.
  - destruct (freePointPointer_inv _ _ _ Hrun) as (b & vx & vy & -> & Hb).
    rewrite (freePointPointer_spec _ _ _ _ Hb) in Hrun.
    injection Hrun as <-. eauto 8.
Qed.

Lemma run_cons_inv c cs s s' :
  run (c :: cs) s = Ok (tt, s') ->
  exists s1, exec c s = Ok (tt, s1) /\ run cs s1 = Ok (tt, s').
Proof.
  simpl. intros H. apply bind_inv in H as ([] & s1 & H1 & H2). eauto.
Qed.

(** A call other than the release of [b] keeps [b] a live, initialised
    object from [malloc]. *)
Lemma exec_keeps_allocation c s s' b vx vy :
  exec c s = Ok (tt, s') ->
  mem s !! b = Some (mkObject Malloced Allocated (Some vx) (Some vy)) ->
  c <> CallFreePointPointer (Ptr b) ->
  exists vx' vy',
    mem s' !! b = Some (mkObject Malloced Allocated (Some vx') (Some vy')).
Proof.
  intros Hrun Hb Hc. apply exec_inv in Hrun.
  destruct c as [p|a|p|a| | |a].
  - subst s'. eauto.
  - destruct Hrun as (b0 & p & _ & _ & ->). eauto.
  - subst s'. eauto.
  - destruct Hrun as (b0 & g & wx & wy & _ & Hb0 & ->). simpl.
    destruct (decide (b0 = b)) as [->|Hne].
    + rewrite list_lookup_insert_eq by (now apply lookup_lt_Some in Hb).
      rewrite Hb0 in Hb. injection Hb as -> _ _. eauto.
    + rewrite list_lookup_insert_ne by assumption. eauto.
  - subst s'. eauto.
  - destruct Hrun as (n & _ & ->). simpl.
    rewrite (lookup_app_l_Some _ _ _ _ Hb). eauto.
  - destruct Hrun as (b0 & wx & wy & -> & Hb0 & ->). simpl.
    rewrite list_lookup_insert_ne by congruence. eauto.
Qed.

Lemma run_keeps_allocation cs : forall s s' b vx vy,
  run cs s = Ok (tt, s') ->
  mem s !! b = Some (mkObject Malloced Allocated (Some vx) (Some vy)) ->
  Forall (fun c => c <> CallFreePointPointer (Ptr b)) cs ->
  exists vx' vy',
    mem s' !! b = Some (mkObject Malloced Allocated (Some vx') (Some vy')).
Proof.
  induction cs as [|c cs IH]; intros s s' b vx vy Hrun Hb Hcs.
  - injection Hrun as <-. eauto.
  - apply Forall_cons in Hcs as [Hc Hcs].
    apply run_cons_inv in Hrun as (s1 & Hstep & Hrest).
    destruct (exec_keeps_allocation _ _ _ _ _ _ Hstep Hb Hc) as (wx & wy & Hb1).
    exact (IH _ _ _ _ _ Hrest Hb1 Hcs).
Qed.

Lemma first_released_app m o :
  first_released m = None ->
  first_released (m ++ [o]) =
    match origin o, life o with
    | Malloced, Released => Some (length m)
    | _, _ => None
    end.
Proof.
  induction m as [|o0 m IH]; simpl.
  - intros _. now destruct (origin o), (life o).
  - destruct (origin o0), (life o0); try discriminate;
      destruct (first_released m); try discriminate;
      intros _; rewrite IH by reflexivity; now destruct (origin o), (life o).
Qed.

Lemma getPointPointer_with_malloc_Point :
  getPointPointer_with malloc_Point = getPointPointer.
Proof. reflexivity. Qed.

Lemma malloc_reusing_fresh s :
  first_released (mem s) = None -> malloc_reusing s = malloc_Point s.
Proof.
  intros H. unfold malloc_reusing, malloc_Point. now rewrite H.
Qed.

(** [getPointPointer] over the reusing allocator when a released block is
    at hand: the block is handed out again and filled from the counter. *)
Lemma getPointPointer_reuses s n b o :
  heap_room s = S n ->
  first_released (mem s) = Some b ->
  mem s !! b = Some o ->
  getPointPointer_with malloc_reusing s =
    Ok (Ptr b,
        mkState (int_incr (int_incr (counter s)))
          (<[b := mkObject Malloced Allocated
                    (Some (counter s)) (Some (int_incr (counter s)))]> (mem s))
          n
          (stdout s ++
             [Printf "Returning Point    (%d, %d) at %p\n"
                [VInt (counter s); VInt (int_incr (counter s)); VPtr (Ptr b)]])).
Proof.
  intros Hroom Hfirst Hb. pose proof (lookup_lt_Some _ _ _ Hb) as Hlt.
  unfold getPointPointer_with, bind, malloc_reusing, counter_post_incr,
    store_x, store_y, load_x, load_y, write_field, read_field, bind, deref.
  rewrite Hroom, Hfirst. simpl.
  repeat (first [ rewrite list_lookup_insert_eq by (rewrite ?length_insert; lia)
                | rewrite list_insert_insert_eq ]; simpl).
  reflexivity.
Qed.

(** C1, as stated, fails: nothing rejects or detects a second release.
    With an allocator that hands a freed block out again, the address of
    the first allocation is also the address of the second, and the second
    [freePointPointer] on the first reference returns normally. *)
Lemma C1_counterexample :
  exists s',
    (do p <- getPointPointer_with malloc_reusing;
     freePointPointer p;;
     do q <- getPointPointer_with malloc_reusing;
     freePointPointer p;;
     ret (p, q)) (initial_state 1) = Ok ((Ptr 0, Ptr 0), s') /\
    life_at s' 0%nat = Some Released /\
    heap_room s' = 1%nat.
Proof.
  eexists. split; [vm_compute; reflexivity|]. split; reflexivity.
Qed.

(** C1 (amended).  Every allocation obtained from [getPointPointer] is a
    live ([Allocated]) object that was not in memory before.  A
    [freePointPointer] on its address, issued after any sequence of calls
    of the library that returns and does not release it, returns normally
    and leaves the object [Released].  The code does not reject or detect a
    second release: [freePointPointer] checks nothing, so the second call
    is undefined behaviour (it reads through the released pointer before
    it calls [free]); and with an allocator that hands freed blocks out
    again, after the next allocation has received the same address, the
    second release through the old reference returns normally. *)
Theorem C1_release_is_unchecked (s : state) (a : ptr) (s1 : state) :
  getPointPointer s = Ok (a, s1) ->
  exists b,
    a = Ptr b /\
    life_at s b = None /\
    life_at s1 b = Some Allocated /\
    (forall cs s2,
       Forall (fun c => c <> CallFreePointPointer a) cs ->
       run cs s1 = Ok (tt, s2) ->
       exists s3,
         freePointPointer a s2 = Ok (tt, s3) /\
         life_at s3 b = Some Released /\
         freePointPointer a s3 = Undef UseAfterFree) /\
    (first_released (mem s) = None ->
     getPointPointer_with malloc_reusing s = Ok (a, s1) /\
     exists s2 s3 s4,
       freePointPointer a s1 = Ok (tt, s2) /\
       getPointPointer_with malloc_reusing s2 = Ok (a, s3) /\
       freePointPointer a s3 = Ok (tt, s4)).
Proof.
  intros Hget. destruct (getPointPointer_inv _ _ Hget) as [n Hn].
  pose proof Hget as Hget0.
  rewrite (getPointPointer_spec s n Hn) in Hget. injection Hget as <- <-.
  set (b := length (mem s)) in *. set (s1 := mkState _ _ _ _) in *.
  assert (Hb : mem s1 !! b =
               Some (mkObject Malloced Allocated (Some (counter s))
                       (Some (int_incr (counter s))))).
  { subst s1 b. simpl. now rewrite lookup_app_r, Nat.sub_diag by lia. }
  exists b. split; [reflexivity|].
  split. { unfold life_at. subst b. now rewrite lookup_ge_None_2. }
  split. { unfold life_at. now rewrite Hb. }
  split.
  - intros cs s2 Hcs Hrun.
    destruct (run_keeps_allocation _ _ _ _ _ _ Hrun Hb Hcs) as (vx & vy & Hb2).
    pose proof (freePointPointer_spec s2 _ _ _ Hb2) as Hfree.
    set (s3 := mkState _ _ _ _) in Hfree.
    assert (Hrel : life_at s3 b = Some Released).
    { subst s3. unfold life_at. simpl.
      rewrite list_lookup_insert_eq by (now apply lookup_lt_Some in Hb2).
      reflexivity. }
    exists s3. split; [exact Hfree|]. split; [exact Hrel|].
    now apply freePointPointer_released.
  - intros Hnone. split.
    { rewrite <- Hget0. unfold getPointPointer_with, getPointPointer.
      unfold bind at 1 7. now rewrite (malloc_reusing_fresh s Hnone). }
    pose proof (freePointPointer_spec s1 _ _ _ Hb) as Hfree.
    set (s2 := mkState _ _ _ _) in Hfree.
    assert (Hmem2 : mem s2 =
                    mem s ++ [mkObject Malloced Released (Some (counter s))
                                (Some (int_incr (counter s)))]).
    { subst s2 s1 b. simpl. now rewrite insert_app_r_alt, Nat.sub_diag by lia. }
    assert (Hfirst : first_released (mem s2) = Some b).
    { rewrite Hmem2. now rewrite (first_released_app _ _ Hnone). }
    assert (Hb2 : mem s2 !! b =
                  Some (mkObject Malloced Released (Some (counter s))
                          (Some (int_incr (counter s))))).
    { rewrite Hmem2. subst b. now rewrite lookup_app_r, Nat.sub_diag by lia. }
    pose proof (getPointPointer_reuses s2 (heap_room s1) b _ eq_refl Hfirst Hb2)
      as Hagain.
    set (s3 := mkState _ _ _ _) in Hagain.
    assert (Hb3 : mem s3 !! b =
                  Some (mkObject Malloced Allocated (Some (counter s2))
                          (Some (int_incr (counter s2))))).
    { subst s3. simpl. apply list_lookup_insert_eq. now apply lookup_lt_Some in Hb2. }
    pose proof (freePointPointer_spec s3 _ _ _ Hb3) as Hfree3.
    eauto 10.
Qed.

Lemma C1_release_is_unchecked_witness :
  exists s2 s3,
    run [CallGetPoint; CallMovePointRef (Ptr 0)]
      (mkState 2 [mkObject Malloced Allocated (Some 0) (Some 1)] 0
         [Printf "Returning Point    (%d, %d) at %p\n"
            [VInt 0; VInt 1; VPtr (Ptr 0)]]) = Ok (tt, s2) /\
    freePointPointer (Ptr 0) s2 = Ok (tt, s3) /\
    freePointPointer (Ptr 0) s3 = Undef UseAfterFree.
Proof.
  destruct (C1_release_is_unchecked (initial_state 1) (Ptr 0)
              (mkState 2 [mkObject Malloced Allocated (Some 0) (Some 1)] 0
                 [Printf "Returning Point    (%d, %d) at %p\n"
                    [VInt 0; VInt 1; VPtr (Ptr 0)]]) eq_refl)
    as (b & Ha & _ & _ & Hfirst & _).
  eexists.
  assert (Hrun : run [CallGetPoint; CallMovePointRef (Ptr 0)]
                   (mkState 2 [mkObject Malloced Allocated (Some 0) (Some 1)] 0
                      [Printf "Returning Point    (%d, %d) at %p\n"
                         [VInt 0; VInt 1; VPtr (Ptr 0)]]) = Ok (tt, _))
    by (vm_compute; reflexivity).
  assert (Hcs : Forall (fun c => c <> CallFreePointPointer (Ptr 0))
                  [CallGetPoint; CallMovePointRef (Ptr 0)])
    by (repeat constructor; discriminate).
  destruct (Hfirst _ _ Hcs Hrun) as (s3 & Hfree & _ & Hagain).
  exists s3. split; [exact Hrun|]. split; assumption.
Defined.

(** X1.  [getPointPointer] does not check the result of [malloc]: in every
    state in which the heap has no room it is undefined (it writes through
    the null pointer), and whenever it returns, the pointer returned is not
    null but the address of a live object that was not in memory before. *)
Theorem getPointPointer_unchecked_malloc (s : state) :
  (heap_room s = O -> getPointPointer s = Undef NullDeref) /\
  (forall a s',
     getPointPointer s = Ok (a, s') ->
     a = Ptr (length (mem s)) /\
     mem s !! length (mem s) = None /\
     life_at s' (length (mem s)) = Some Allocated /\
     heap_room s = S (heap_room s')).
Proof.
  split; [apply getPointPointer_no_room|].
  intros a s' Hget. destruct (getPointPointer_inv _ _ Hget) as [n Hn].
  rewrite (getPointPointer_spec s n Hn) in Hget. injection Hget as <- <-.
  split; [reflexivity|]. split; [now apply lookup_ge_None_2|].
  split; [|exact Hn]. unfold life_at. simpl.
  now rewrite lookup_app_r, Nat.sub_diag by lia.
Qed.

Lemma getPointPointer_unchecked_malloc_witness :
  getPointPointer (initial_state 0) = Undef NullDeref /\
  life_at (mkState 2 [mkObject Malloced Allocated (Some 0) (Some 1)] 0
             [Printf "Returning Point    (%d, %d) at %p\n"
                [VInt 0; VInt 1; VPtr (Ptr 0)]]) 0 = Some Allocated.
Proof.
  split.
  - apply (proj1 (getPointPointer_unchecked_malloc (initial_state 0))).
    reflexivity.
  - apply (proj2 (getPointPointer_unchecked_malloc (initial_state 1)) (Ptr 0)).
    reflexivity.
Defined.

Lemma live_malloced_app m o :
  live_malloced (m ++ [o]) =
    (live_malloced m + live_malloced [o])%nat.
Proof.
  induction m as [|o0 m IH]; simpl in *; [lia|]. rewrite IH. simpl. lia.
Qed.

Lemma live_malloced_insert m : forall b o o',
  m !! b = Some o ->
  (live_malloced (<[b := o']> m) + live_malloced [o] =
     live_malloced m + live_malloced [o'])%nat.
Proof.
  induction m as [|o0 m IH]; intros [|b] o o'; simpl; try discriminate.
  - intros [= ->]. lia.
  - intros H. specialize (IH _ _ o' H). simpl in IH. lia.
Qed.

(** X2.  Allocation and release compose to a round trip.  In every state in
    which the heap has room, [getPointPointer] followed by
    [freePointPointer] on its result returns; afterwards the room of the
    heap and the number of live allocations are as before, every object
    that existed is unchanged, the new object is released, the counter has
    advanced by two increments, and the output has gained the two lines,
    which show the same coordinates and the same address. *)
Theorem allocation_round_trip (s : state) :
  heap_room s <> O ->
  exists a s1 s2,
    getPointPointer s = Ok (a, s1) /\
    freePointPointer a s1 = Ok (tt, s2) /\
    heap_room s2 = heap_room s /\
    live_malloced (mem s2) = live_malloced (mem s) /\
    (forall b, (b < length (mem s))%nat -> mem s2 !! b = mem s !! b) /\
    life_at s2 (length (mem s)) = Some Released /\
    counter s2 = int_incr (int_incr (counter s)) /\
    stdout s2 =
      stdout s ++
        [Printf "Returning Point    (%d, %d) at %p\n"
           [VInt (counter s); VInt (int_incr (counter s)); VPtr a];
         Printf "Freeing Point      (%d, %d) at %p\n"
           [VInt (counter s); VInt (int_incr (counter s)); VPtr a]].
Proof.
  intros Hroom. destruct (heap_room s) as [|n] eqn:E; [now destruct Hroom|].
  pose proof (getPointPointer_spec s n E) as Hget.
  set (s1 := mkState _ _ _ _) in Hget.
  assert (Hb : mem s1 !! length (mem s) =
               Some (mkObject Malloced Allocated (Some (counter s))
                       (Some (int_incr (counter s))))).
  { subst s1. simpl. now rewrite lookup_app_r, Nat.sub_diag by lia. }
  pose proof (freePointPointer_spec s1 _ _ _ Hb) as Hfree.
  do 3 eexists. split; [exact Hget|]. split; [exact Hfree|].
  subst s1. unfold life_at. simpl.
  rewrite insert_app_r_alt, Nat.sub_diag by lia. simpl.
  split; [reflexivity|]. split.
  { rewrite live_malloced_app. simpl. lia. }
  split. { intros b Hlt. now apply lookup_app_l. }
  split. { now rewrite lookup_app_r, Nat.sub_diag by lia. }
  split; [reflexivity|]. now rewrite <- app_assoc.
Qed.

Lemma allocation_round_trip_witness :
  exists a s1 s2,
    getPointPointer (initial_state 1) = Ok (a, s1) /\
    freePointPointer a s1 = Ok (tt, s2) /\
    heap_room s2 = 1%nat.
Proof.
  destruct (allocation_round_trip (initial_state 1))
    as (a & s1 & s2 & H1 & H2 & H3 & _).
  - simpl. lia.
  - exists a, s1, s2. repeat split; assumption.
Defined.

(** X3.  Two allocations do not alias.  With room for two objects, two
    calls of [getPointPointer] return different addresses, and
    [movePointRef] through the first leaves the Point of the second as it
    was drawn: read back, the first holds the incremented first pair of
    counter values and the second the second pair. *)
Theorem allocations_do_not_alias (s : state) (n : nat) :
  heap_room s = S (S n) ->
  let c := counter s in
  exists s',
    (do a <- getPointPointer;
     do b <- getPointPointer;
     movePointRef a;;
     do pa <- load_Point a;
     do pb <- load_Point b;
     ret (a, b, pa, pb)) s =
      Ok ((Ptr (length (mem s)), Ptr (S (length (mem s))),
           mkPoint (int_incr c) (int_incr (int_incr c)),
           mkPoint (int_incr (int_incr c)) (int_incr (int_incr (int_incr c)))),
          s') /\
    Ptr (length (mem s)) <> Ptr (S (length (mem s))).
Proof.
  intros Hroom c. subst c.
  rewrite (bind_Ok _ _ _ _ _ (getPointPointer_spec s (S n) Hroom)).
  set (s1 := mkState _ _ _ _).
  rewrite (bind_Ok _ _ _ _ _ (getPointPointer_spec s1 n eq_refl)).
  set (s2 := mkState _ _ _ _).
  assert (Hlen : length (mem s1) = S (length (mem s))).
  { subst s1. simpl. rewrite length_app. simpl. lia. }
  assert (Ha : mem s2 !! length (mem s) =
               Some (mkObject Malloced Allocated (Some (counter s))
                       (Some (int_incr (counter s))))).
  { subst s2 s1. simpl. rewrite lookup_app_l by (rewrite length_app; simpl; lia).
    now rewrite lookup_app_r, Nat.sub_diag by lia. }
  rewrite (bind_Ok _ _ _ _ _ (movePointRef_spec s2 _ _ _ _ Ha)).
  set (s3 := set_stdout _ _).
  assert (Ha3 : mem s3 !! length (mem s) =
                Some (mkObject Malloced Allocated (Some (int_incr (counter s)))
                        (Some (int_incr (int_incr (counter s)))))).
  { subst s3. simpl. apply list_lookup_insert_eq. now apply lookup_lt_Some in Ha. }
  assert (Hb3 : mem s3 !! S (length (mem s)) =
                Some (mkObject Malloced Allocated
                        (Some (int_incr (int_incr (counter s))))
                        (Some (int_incr (int_incr (int_incr (counter s))))))).
  { subst s3. simpl. rewrite list_lookup_insert_ne by lia.
    subst s2 s1. simpl.
    rewrite lookup_app_r by (rewrite length_app; simpl; lia).
    rewrite length_app. simpl.
    now replace (S (length (mem s)) - (length (mem s) + 1))%nat with O by lia. }
  assert (Hload : forall b g vx vy,
             mem s3 !! b = Some (mkObject g Allocated (Some vx) (Some vy)) ->
             load_Point (Ptr b) s3 = Ok (mkPoint vx vy, s3)).
  { intros b g vx vy Hb. unfold load_Point, load_x, load_y.
    rewrite (bind_Ok _ _ _ _ _ (read_field_live s3 b _ Hb eq_refl obj_x _ eq_refl)).
    now rewrite (bind_Ok _ _ _ _ _ (read_field_live s3 b _ Hb eq_refl obj_y _ eq_refl)). }
  rewrite (bind_Ok _ _ _ _ _ (Hload _ _ _ _ Ha3)).
  rewrite Hlen.
  rewrite (bind_Ok _ _ _ _ _ (Hload _ _ _ _ Hb3)).
  exists s3. split; [reflexivity|]. intros [= H]. lia.
Qed.

Lemma allocations_do_not_alias_witness :
  exists s',
    (do a <- getPointPointer;
     do b <- getPointPointer;
     movePointRef a;;
     do pa <- load_Point a;
     do pb <- load_Point b;
     ret (a, b, pa, pb)) (initial_state 2) =
      Ok ((Ptr 0, Ptr 1, mkPoint 1 2, mkPoint 2 3), s').
Proof.
  destruct (allocations_do_not_alias (initial_state 2) O eq_refl) as (s' & H & _).
  exists s'. exact H.
Defined.

(** X4.  [showPointRef] and [movePointRef] check nothing about their
    argument: each returns exactly when the argument is the address of a
    live object with both fields initialised, and on the null pointer each
    is a null dereference. *)
Theorem pointer_calls_return_iff_live (a : ptr) (s : state) :
  ((exists s', showPointRef a s = Ok (tt, s')) <->
   (exists b p, a = Ptr b /\ point_at s b = Some p)) /\
  ((exists s', movePointRef a s = Ok (tt, s')) <->
   (exists b p, a = Ptr b /\ point_at s b = Some p)) /\
  showPointRef NULL s = Undef NullDeref /\
  movePointRef NULL s = Undef NullDeref.
Proof.
  split; [|split; [|split; reflexivity]].
  - split.
    + intros [s' H]. exact (showPointRef_inv _ _ _ H).
    + intros (b & p & -> & Hp). rewrite (showPointRef_spec _ _ _ Hp), showPoint_spec.
      eauto.
  - split.
    + intros [s' H]. destruct (movePointRef_inv _ _ _ H) as (b & g & vx & vy & -> & Hb).
      exists b, (mkPoint vx vy). split; [reflexivity|].
      unfold point_at. now rewrite Hb.
    + intros (b & p & -> & Hp). destruct (point_at_inv _ _ _ Hp) as [g Hg].
      rewrite (movePointRef_spec _ _ _ _ _ Hg). eauto.
Qed.







Lemma pointer_calls_return_iff_live_witness :
  exists s',
    movePointRef (Ptr 0)
      (mkState 0 [mkObject Automatic Allocated (Some 3) (Some 4)] 0 []) =
      Ok (tt, s').
Proof.
  apply (proj2 (proj1 (proj2 (pointer_calls_return_iff_live (Ptr 0)
           (mkState 0 [mkObject Automatic Allocated (Some 3) (Some 4)] 0 []))))).
  exists 0%nat, (mkPoint 3 4). split; reflexivity.
Defined.

Lemma wf_state_exec c s s' :
  exec c s = Ok (tt, s') -> wf_state s -> wf_state s'.
Proof.
  intros Hrun [Hc Hm]. apply exec_inv in Hrun.
  destruct c as [p|a|p|a| | |a].
  - subst s'. now split.
  - destruct Hrun as (b0 & p & _ & _ & ->). now split.
  - subst s'. now split.
  - destruct Hrun as (b0 & g & vx & vy & _ & Hb0 & ->). split; [exact Hc|].
    simpl. apply Forall_insert; [exact Hm|].
    split; simpl; apply in_int_wrap.
  - subst s'. split; [apply in_int_wrap | exact Hm].
  - destruct Hrun as (n & _ & ->). split; [apply in_int_wrap|].
    simpl. apply Forall_app. split; [exact Hm|].
    constructor; [|constructor]. split; simpl; [exact Hc | apply in_int_wrap].
  - destruct Hrun as (b0 & vx & vy & _ & Hb0 & ->). split; [exact Hc|].
    simpl. apply Forall_insert; [exact Hm|].
    exact (proj1 (Forall_lookup _ _) Hm _ _ Hb0).
Qed.

(** X7.  Every sequence of calls that returns keeps the state within the
    range of [int]: if the counter and every initialised field in memory
    are between [INT_MIN] and [INT_MAX] before, they are afterwards. *)
Theorem run_keeps_int_range (cs : list call) : forall s s',
  wf_state s -> run cs s = Ok (tt, s') -> wf_state s'.
Proof.
  induction cs as [|c cs IH]; intros s s' Hwf Hrun.
  - now injection Hrun as <-.
  - apply run_cons_inv in Hrun as (s1 & Hstep & Hrest).
    exact (IH _ _ (wf_state_exec _ _ _ Hstep Hwf) Hrest).
Qed.

Lemma run_keeps_int_range_witness :
  exists s',
    run [CallGetPointPointer; CallMovePointRef (Ptr 0); CallGetPoint]
      (mkState INT_MAX [] 1 []) = Ok (tt, s') /\
    wf_state s'.
Proof.
  eexists.
  assert (Hrun : run [CallGetPointPointer; CallMovePointRef (Ptr 0); CallGetPoint]
                   (mkState INT_MAX [] 1 []) = Ok (tt, _))
    by (vm_compute; reflexivity).
  split; [exact Hrun|].
  refine (run_keeps_int_range _ _ _ _ Hrun).
  split; [unfold in_int, INT_MIN, INT_MAX; simpl; lia | constructor].
Defined.

Lemma ticks_nonneg cs : 0 <= ticks cs.
Proof.
  induction cs as [|c cs IH]; simpl; [lia|]. destruct c; simpl; lia.
Qed.

Lemma exec_counter c s s' :
  exec c s = Ok (tt, s') ->
  counter s' = if ticks_of c =? 0 then counter s else wrap_int (counter s + 2).
Proof.
  intros Hrun. apply exec_inv in Hrun.
  destruct c as [p|a|p|a| | |a]; simpl.
  - now subst s'.
  - now destruct Hrun as (b0 & p & _ & _ & ->).
  - now subst s'.
  - now destruct Hrun as (b0 & g & vx & vy & _ & _ & ->).
  - subst s'. apply int_incr_twice.
  - destruct Hrun as (n & _ & ->). apply int_incr_twice.
  - now destruct Hrun as (b0 & vx & vy & _ & _ & ->).
Qed.

(** X8.  Only [getPoint] and [getPointPointer] advance the counter, by two
    each.  After every sequence of calls that returns, the counter is its
    value before plus twice the number of those calls, stored as an [int];
    it is exactly that sum when the sum does not exceed [INT_MAX]. *)
Theorem run_counter (cs : list call) : forall s s',
  in_int (counter s) ->
  run cs s = Ok (tt, s') ->
  counter s' = wrap_int (counter s + ticks cs) /\
  (counter s + ticks cs <= INT_MAX -> counter s' = counter s + ticks cs).
Proof.
  assert (Hmain : forall s s',
    in_int (counter s) -> run cs s = Ok (tt, s') ->
    counter s' = wrap_int (counter s + ticks cs)).
  { induction cs as [|c cs IH]; intros s s' Hc Hrun.
    - injection Hrun as <-. simpl. now rewrite Z.add_0_r, wrap_int_id.
    - apply run_cons_inv in Hrun as (s1 & Hstep & Hrest).
      apply exec_counter in Hstep. cbn [ticks].
      destruct (ticks_of c =? 0) eqn:E.
      + apply Z.eqb_eq in E. rewrite E, Z.add_0_l, <- Hstep.
        apply IH; [congruence | exact Hrest].
      + assert (Hc2 : ticks_of c = 2) by (destruct c; simpl in *; congruence).
        rewrite (IH s1 s') by (rewrite ?Hstep; try apply in_int_wrap; exact Hrest).
        rewrite Hstep, wrap_int_wrap_add, Hc2. f_equal. lia. }
  intros s s' Hc Hrun. split; [now apply Hmain|].
  intros Hfit. rewrite (Hmain s s' Hc Hrun). apply wrap_int_id.
  pose proof (ticks_nonneg cs). unfold in_int in *. lia.
Qed.

Lemma run_counter_witness :
  exists s',
    run [CallGetPoint; CallShowPoint (mkPoint 1 2); CallGetPointPointer;
         CallFreePointPointer (Ptr 0)] (initial_state 1) = Ok (tt, s') /\
    counter s' = 4.
Proof.
  eexists.
  assert (Hrun : run [CallGetPoint; CallShowPoint (mkPoint 1 2); CallGetPointPointer;
                      CallFreePointPointer (Ptr 0)] (initial_state 1) = Ok (tt, _))
    by (vm_compute; reflexivity).
  split; [exact Hrun|].
  apply (proj2 (run_counter _ (initial_state 1) _ in_int_0 Hrun)).
  unfold INT_MAX. simpl. lia.
Defined.

Lemma exec_stdout c s s' :
  exec c s = Ok (tt, s') ->
  exists out, stdout s' = stdout s ++ out /\ length out = lines_of c.
Proof.
  intros Hrun. apply exec_inv in Hrun.
  destruct c as [p|a|p|a| | |a]; simpl.
  - subst s'. simpl. eauto.
  - destruct Hrun as (b0 & p & _ & _ & ->). simpl. eauto.
  - subst s'. simpl. eauto.
  - destruct Hrun as (b0 & g & vx & vy & _ & _ & ->). simpl. eauto.
  - subst s'. simpl. eauto.
  - destruct Hrun as (n & _ & ->). simpl. eauto.
  - destruct Hrun as (b0 & vx & vy & _ & _ & ->). simpl. eauto.
Qed.

(** X9.  The library only appends to the output.  After every sequence of
    calls that returns, the output is the output before followed by one
    line for each call, two for [movePoint] and [movePointRef]. *)
Theorem run_output (cs : list call) : forall s s',
  run cs s = Ok (tt, s') ->
  exists out, stdout s' = stdout s ++ out /\ length out = lines cs.
Proof.
  induction cs as [|c cs IH]; intros s s' Hrun.
  - injection Hrun as <-. exists []. split; [now rewrite app_nil_r|reflexivity].
  - apply run_cons_inv in Hrun as (s1 & Hstep & Hrest).
    destruct (exec_stdout _ _ _ Hstep) as (o1 & H1 & L1).
    destruct (IH _ _ Hrest) as (o2 & H2 & L2).
    exists (o1 ++ o2). split.
    + now rewrite H2, H1, app_assoc.
    + rewrite length_app. simpl. lia.
Qed.

Lemma run_output_witness :
  exists s' out,
    run [CallMovePoint (mkPoint 1 2); CallGetPoint] (initial_state 0) =
      Ok (tt, s') /\
    stdout s' = [] ++ out /\ length out = 3%nat.
Proof.
  eexists.
  assert (Hrun : run [CallMovePoint (mkPoint 1 2); CallGetPoint] (initial_state 0) =
                 Ok (tt, _)) by (vm_compute; reflexivity).
  destruct (run_output _ _ _ Hrun) as (out & Hout & Hlen).
  exists out. split; [exact Hrun|]. split; assumption.
Defined.

Lemma exec_ledger c s s' :
  exec c s = Ok (tt, s') ->
  (heap_room s' + live_malloced (mem s') = heap_room s + live_malloced (mem s))%nat.
Proof.
  intros Hrun. apply exec_inv in Hrun.
  destruct c as [p|a|p|a| | |a].
  - now subst s'.
  - now destruct Hrun as (b0 & p & _ & _ & ->).
  - now subst s'.
  - destruct Hrun as (b0 & g & vx & vy & _ & Hb0 & ->). simpl.
    pose proof (live_malloced_insert _ _ _
                  (mkObject g Allocated (Some (int_incr vx)) (Some (int_incr vy)))
                  Hb0) as H.
    simpl in H. lia.
  - now subst s'.
  - destruct Hrun as (n & Hn & ->). simpl.
    rewrite live_malloced_app, Hn. simpl. lia.
  - destruct Hrun as (b0 & vx & vy & _ & Hb0 & ->). simpl.
    pose proof (live_malloced_insert _ _ _
                  (mkObject Malloced Released (Some vx) (Some vy)) Hb0) as H.
    simpl in H. lia.
Qed.

Lemma exec_accounting c s s' :
  exec c s = Ok (tt, s') ->
  (heap_room s' + allocations [c] = heap_room s + releases [c])%nat /\
  length (mem s') = (length (mem s) + allocations [c])%nat.
Proof.
  intros Hrun. apply exec_inv in Hrun.
  destruct c as [p|a|p|a| | |a]; simpl.
  - subst s'. simpl. lia.
  - destruct Hrun as (b0 & p & _ & _ & ->). simpl. lia.
  - subst s'. simpl. lia.
  - destruct Hrun as (b0 & g & vx & vy & _ & _ & ->). simpl.
    rewrite length_insert. lia.
  - subst s'. simpl. lia.
  - destruct Hrun as (n & Hn & ->). simpl. rewrite length_app, Hn. simpl. lia.
  - destruct Hrun as (b0 & vx & vy & _ & _ & ->). simpl.
    rewrite length_insert. lia.
Qed.

(** X10.  Allocations are accounted for.  Through every sequence of calls
    that returns, the room of the heap plus the number of objects obtained
    from [malloc] and not yet freed stays the same, and only
    [getPointPointer] and [freePointPointer] move it: the room is the room
    before, less one for each [getPointPointer] and plus one for each
    [freePointPointer] of the sequence, the number of live allocations
    changes the opposite way, and the memory has grown by exactly one
    object for each [getPointPointer]; so a sequence of show, move and
    [getPoint] calls alone leaves all three as they were. *)
Theorem run_heap_ledger (cs : list call) : forall s s',
  run cs s = Ok (tt, s') ->
  (heap_room s' + live_malloced (mem s') = heap_room s + live_malloced (mem s))%nat /\
  (heap_room s' + allocations cs = heap_room s + releases cs)%nat /\
  (live_malloced (mem s') + releases cs =
     live_malloced (mem s) + allocations cs)%nat /\
  length (mem s') = (length (mem s) + allocations cs)%nat /\
  (allocations cs = O -> releases cs = O ->
   heap_room s' = heap_room s /\
   live_malloced (mem s') = live_malloced (mem s) /\
   length (mem s') = length (mem s)).
Proof.
  assert (Hmain : forall s s',
    run cs s = Ok (tt, s') ->
    (heap_room s' + live_malloced (mem s') = heap_room s + live_malloced (mem s))%nat /\
    (heap_room s' + allocations cs = heap_room s + releases cs)%nat /\
    length (mem s') = (length (mem s) + allocations cs)%nat).
  { induction cs as [|c cs IH]; intros s s' Hrun.
    - injection Hrun as <-. simpl. lia.
    - apply run_cons_inv in Hrun as (s1 & Hstep & Hrest).
      destruct (IH _ _ Hrest) as (H1 & H2 & H3).
      pose proof (exec_ledger _ _ _ Hstep) as L1.
      destruct (exec_accounting _ _ _ Hstep) as [L2 L3].
      destruct c; simpl in *; lia. }
  intros s s' Hrun. destruct (Hmain s s' Hrun) as (H1 & H2 & H3).
  repeat split; try assumption; lia.
Qed.

Lemma run_heap_ledger_witness :
  exists s',
    run [CallGetPointPointer; CallShowPointRef (Ptr 0); CallGetPointPointer;
         CallFreePointPointer (Ptr 0)] (initial_state 2) = Ok (tt, s') /\
    heap_room s' = 1%nat /\
    live_malloced (mem s') = 1%nat /\
    length (mem s') = 2%nat.
Proof.
  eexists.
  assert (Hrun : run [CallGetPointPointer; CallShowPointRef (Ptr 0);
                      CallGetPointPointer; CallFreePointPointer (Ptr 0)]
                   (initial_state 2) = Ok (tt, _))
    by (vm_compute; reflexivity).
  split; [exact Hrun|].
  destruct (run_heap_ledger _ _ _ Hrun) as (_ & H2 & H3 & H4 & _).
  simpl in H2, H3, H4. repeat split; lia.
Defined.

(** X11.  Moves through a reference add up.  For a live object holding a
    Point [p] with fields in the range of [int], [k] calls of
    [movePointRef] on its address return and leave it holding
    [(x p + k, y p + k)] stored as [int]s, which are exactly those sums when
    they do not exceed [INT_MAX]; no other object and not the counter is
    changed. *)
Theorem movePointRef_repeat (k : nat) : forall s b p,
  point_at s b = Some p ->
  wf_Point p ->
  exists s',
    run (replicate k (CallMovePointRef (Ptr b))) s = Ok (tt, s') /\
    point_at s' b =
      Some (mkPoint (wrap_int (x p + Z.of_nat k)) (wrap_int (y p + Z.of_nat k))) /\
    (x p + Z.of_nat k <= INT_MAX -> y p + Z.of_nat k <= INT_MAX ->
     point_at s' b = Some (mkPoint (x p + Z.of_nat k) (y p + Z.of_nat k))) /\
    (forall b', b' <> b -> mem s' !! b' = mem s !! b') /\
    counter s' = counter s.
Proof.
  assert (Hmain : forall k s b p,
    point_at s b = Some p -> wf_Point p ->
    exists s',
      run (replicate k (CallMovePointRef (Ptr b))) s = Ok (tt, s') /\
      point_at s' b =
        Some (mkPoint (wrap_int (x p + Z.of_nat k)) (wrap_int (y p + Z.of_nat k))) /\
      (forall b', b' <> b -> mem s' !! b' = mem s !! b') /\
      counter s' = counter s).
  { clear k. induction k as [|k IH]; intros s b p Hp [Hx Hy].
    - exists s. split; [reflexivity|]. split; [|auto].
      rewrite Hp, !Z.add_0_r, !wrap_int_id by assumption. now destruct p.
    - destruct (point_at_inv _ _ _ Hp) as [g Hg].
      pose proof (movePointRef_spec _ _ _ _ _ Hg) as Hstep.
      set (s1 := set_stdout _ _) in Hstep.
      assert (Hp1 : point_at s1 b = Some (mkPoint (int_incr (x p)) (int_incr (y p)))).
      { subst s1. unfold point_at. simpl.
        now rewrite list_lookup_insert_eq by (now apply lookup_lt_Some in Hg). }
      destruct (IH s1 b _ Hp1) as (s' & Hrun & Hat & Hframe & Hc).
      { split; apply in_int_wrap. }
      exists s'. split.
      { cbn [replicate run exec]. now rewrite (bind_Ok _ _ _ _ _ Hstep). }
      split.
      { rewrite Hat. cbn [x y]. unfold int_incr. rewrite !wrap_int_wrap_add.
        do 3 f_equal; lia. }
      split; [|exact Hc].
      intros b' Hne. rewrite (Hframe b' Hne). subst s1. simpl.
      now apply list_lookup_insert_ne. }
  intros s b p Hp Hwf.
  destruct (Hmain k s b p Hp Hwf) as (s' & Hrun & Hat & Hframe & Hc).
  exists s'. split; [exact Hrun|]. split; [exact Hat|]. split; [|auto].
  intros Hx Hy. rewrite Hat. destruct Hwf as [[Hx0 _] [Hy0 _]].
  rewrite !wrap_int_id by (unfold in_int; lia). reflexivity.
Qed.

Lemma movePointRef_repeat_witness :
  exists s',
    run (replicate 3 (CallMovePointRef (Ptr 0)))
      (mkState 0 [mkObject Automatic Allocated (Some 3) (Some 4)] 0 []) =
      Ok (tt, s') /\
    point_at s' 0%nat = Some (mkPoint 6 7).
Proof.
  destruct (movePointRef_repeat 3
              (mkState 0 [mkObject Automatic Allocated (Some 3) (Some 4)] 0 [])
              0%nat (mkPoint 3 4) eq_refl)
    as (s' & Hrun & _ & Hat & _).
  - unfold wf_Point, in_int, INT_MIN, INT_MAX. simpl. lia.
  - exists s'. split; [exact Hrun|]. apply Hat; unfold INT_MAX; simpl; lia.
Defined.

(** * Further properties of the string example *)

Lemma char_incr_NUL c : char_incr c = NUL <-> c = "255"%char.
Proof.
  split.
  - destruct c as [[] [] [] [] [] [] [] []]; vm_compute; intros H;
      first [reflexivity | discriminate H].
  - now intros ->.
Qed.

Lemma strlen_app l r :
  Forall (fun c => c <> NUL) l ->
  strlen (l ++ r) = (fun n => (length l + n)%nat) <$> strlen r.
Proof.
  induction 1 as [|c l Hc _ IH]; simpl.
  - now destruct (strlen r).
  - apply is_NUL_false in Hc. rewrite Hc, IH. now destruct (strlen r).
Qed.

Lemma strlen_None l : Forall (fun c => c <> NUL) l -> strlen l = None.
Proof.
  intros H. rewrite <- (app_nil_r l). now rewrite strlen_app.
Qed.

Section LoopPrefix.

Variables (post post' : list ascii) (m : nat) (B : Z).
Hypothesis Hpost : strlen post = Some m.
Hypothesis HB : B <= INT_MAX.
Hypothesis Htail : forall done fuel,
  Forall (fun c => c <> NUL) done ->
  Z.of_nat (length done) <= B ->
  (2 <= fuel)%nat ->
  add_one_loop fuel (Z.of_nat (length done)) (done ++ post) = Ok (done ++ post').

(** The loop increments a run of bytes that are neither NUL nor 255 one by
    one and goes on with what follows. *)
Lemma add_one_loop_prefix todo : forall done fuel,
  Forall (fun c => c <> NUL /\ c <> "255"%char) todo ->
  Forall (fun c => c <> NUL) done ->
  Z.of_nat (length done + length todo) <= B ->
  (length todo + 2 <= fuel)%nat ->
  add_one_loop fuel (Z.of_nat (length done)) (done ++ todo ++ post) =
    Ok (done ++ map char_incr todo ++ post').
Proof.
  induction todo as [|c todo IH]; intros done fuel Htodo Hdone Hlen Hfuel.
  - simpl in *. apply Htail; [assumption | lia | lia].
  - apply Forall_cons in Htodo as [[Hc Hc'] Htodo]. cbn [length] in *.
    destruct fuel as [|fuel]; [lia|]. rewrite add_one_loop_step.
    assert (Hint : in_int (Z.of_nat (length done)))
      by (unfold in_int, INT_MIN, INT_MAX in *; lia).
    assert (Hn : strlen (done ++ (c :: todo) ++ post) =
                 Some (length done + S (length todo + m))%nat).
    { rewrite strlen_app by assumption. cbn [app strlen].
      apply is_NUL_false in Hc. rewrite Hc.
      rewrite strlen_app, Hpost by (eapply Forall_impl; [exact Htodo|]; now intros ? []).
      reflexivity. }
    rewrite Hn, to_size_t_nonneg by (assumption || lia).
    replace (Z.of_nat (length done) <? _) with true by (symmetry; apply Z.ltb_lt; lia).
    replace (Z.of_nat (length done) <? 0) with false by (symmetry; apply Z.ltb_ge; lia).
    rewrite Nat2Z.id.
    rewrite lookup_app_r, Nat.sub_diag by lia. cbn [app lookup list_lookup].
    rewrite insert_app_r_alt, Nat.sub_diag by lia. cbn [app insert list_insert].
    rewrite int_incr_succ by (unfold in_int, INT_MIN, INT_MAX in *; lia).
    replace (Z.of_nat (length done) + 1) with (Z.of_nat (length (done ++ [char_incr c])))
      by (rewrite length_app; simpl; lia).
    replace (done ++ char_incr c :: todo ++ post)
      with ((done ++ [char_incr c]) ++ todo ++ post) by (now rewrite <- app_assoc).
    rewrite IH.
    + cbn [map]. now rewrite <- app_assoc.
    + exact Htodo.
    + apply Forall_app. split; [exact Hdone|]. constructor; [|constructor].
      intros H. apply char_incr_NUL in H. contradiction.
    + rewrite length_app. simpl. lia.
    + lia.
Qed.

End LoopPrefix.

Lemma add_one_loop_stops_at_NUL post done fuel :
  Forall (fun c => c <> NUL) done ->
  Z.of_nat (length done) <= INT_MAX ->
  (2 <= fuel)%nat ->
  add_one_loop fuel (Z.of_nat (length done)) (done ++ NUL :: post) =
    Ok (done ++ NUL :: post).
Proof.
  intros Hdone Hlen Hfuel. destruct fuel as [|fuel]; [lia|].
  rewrite add_one_loop_step, strlen_terminated by assumption.
  rewrite to_size_t_nonneg by (unfold in_int, INT_MIN; lia).
  now rewrite Z.ltb_irrefl.
Qed.

Lemma add_one_loop_stops_at_255 rest k done fuel :
  strlen rest = Some k ->
  Forall (fun c => c <> NUL) done ->
  Z.of_nat (length done) <= INT_MAX - 1 ->
  (2 <= fuel)%nat ->
  add_one_loop fuel (Z.of_nat (length done)) (done ++ "255"%char :: rest) =
    Ok (done ++ NUL :: rest).
Proof.
  intros Hrest Hdone Hlen Hfuel.
  destruct fuel as [|[|fuel]]; [lia|lia|].
  rewrite add_one_loop_step.
  rewrite strlen_app by assumption. cbn [strlen].
  change (is_NUL "255") with false. rewrite Hrest. cbn [fmap option_fmap option_map].
  rewrite to_size_t_nonneg by (unfold in_int, INT_MIN, INT_MAX in *; lia).
  replace (Z.of_nat (length done) <? _) with true by (symmetry; apply Z.ltb_lt; lia).
  replace (Z.of_nat (length done) <? 0) with false by (symmetry; apply Z.ltb_ge; lia).
  rewrite Nat2Z.id.
  rewrite lookup_app_r, Nat.sub_diag by lia. cbn [lookup list_lookup].
  rewrite insert_app_r_alt, Nat.sub_diag by lia. cbn [insert list_insert].
  change (char_incr "255") with NUL.
  rewrite int_incr_succ by (unfold INT_MIN, INT_MAX in *; lia).
  rewrite add_one_loop_step, strlen_terminated by assumption.
  rewrite to_size_t_nonneg by (unfold in_int, INT_MIN, INT_MAX in *; lia).
  replace (Z.of_nat (length done) + 1 <? _) with false
    by (symmetry; apply Z.ltb_ge; lia).
  reflexivity.
Qed.

Lemma buffer_value_terminated pre post :
  Forall (fun c => c <> NUL) pre -> buffer_value (pre ++ NUL :: post) = pre.
Proof.
  induction 1 as [|c pre Hc _ IH]; simpl; [reflexivity|].
  apply is_NUL_false in Hc. now rewrite Hc, IH.
Qed.

Lemma incremented_text_has_no_NUL pre :
  Forall (fun c => c <> NUL /\ c <> "255"%char) pre ->
  Forall (fun c => c <> NUL) pre /\ Forall (fun c => c <> NUL) (map char_incr pre).
Proof.
  intros H. split.
  - eapply Forall_impl; [exact H|]. now intros ? [].
  - apply Forall_map. eapply Forall_impl; [exact H|].
    intros c [_ Hc] Hz. apply char_incr_NUL in Hz. contradiction.
Qed.

Lemma add_one_to_string_text (pre post : list ascii) :
  Forall (fun c => c <> NUL /\ c <> "255"%char) pre ->
  Z.of_nat (length pre) <= INT_MAX ->
  add_one_to_string (pre ++ NUL :: post) =
    Ok (map char_incr pre ++ NUL :: post).
Proof.
  intros Hpre Hlen. unfold add_one_to_string.
  apply (add_one_loop_prefix (NUL :: post) (NUL :: post) O INT_MAX
           eq_refl (Z.le_refl _)
           (add_one_loop_stops_at_NUL post) pre [] _ Hpre (Forall_nil_2 _)).
  - simpl. lia.
  - rewrite length_app. simpl. lia.
Qed.

(** X12.  What [add_one_to_string] computes on ordinary text.  For a
    buffer that holds bytes that are neither NUL nor 255, at most
    [INT_MAX] of them, then a NUL and anything after it, the call returns
    with every byte of the text incremented by one and the NUL and the
    rest of the buffer unchanged. *)
Theorem add_one_to_string_increments_text (pre post : list ascii) :
  Forall (fun c => c <> NUL /\ c <> "255"%char) pre ->
  Z.of_nat (length pre) <= INT_MAX ->
  add_one_to_string (pre ++ NUL :: post) =
    Ok (map char_incr pre ++ NUL :: post).
Proof.
  intros Hpre Hlen. unfold add_one_to_string.
  apply (add_one_loop_prefix (NUL :: post) (NUL :: post) O INT_MAX
           eq_refl (Z.le_refl _)
           (add_one_loop_stops_at_NUL post) pre [] _ Hpre (Forall_nil_2 _)).
  - simpl. lia.
  - rewrite length_app. simpl. lia.
Qed.

Lemma add_one_to_string_increments_text_witness :
  add_one_to_string (["H"; "A"; "L"] ++ NUL :: ["x"])%char =
    Ok (map char_incr ["H"; "A"; "L"] ++ NUL :: ["x"])%char.
Proof.
  apply add_one_to_string_increments_text.
  - repeat constructor; discriminate.
  - unfold INT_MAX. simpl. lia.
Defined.

(** X13.  A byte of value 255 ends the work of [add_one_to_string] early.
    Because [strlen] is evaluated again before every iteration, the
    increment that turns the first byte 255 into NUL shortens the string:
    the bytes before it are incremented, it becomes the terminator, and
    everything after it, text included, is left as it was. *)
Theorem add_one_to_string_stops_at_255 (pre rest : list ascii) (k : nat) :
  Forall (fun c => c <> NUL /\ c <> "255"%char) pre ->
  strlen rest = Some k ->
  Z.of_nat (length pre) < INT_MAX ->
  add_one_to_string (pre ++ "255"%char :: rest) =
    Ok (map char_incr pre ++ NUL :: rest) /\
  buffer_value (map char_incr pre ++ NUL :: rest) = map char_incr pre.
Proof.
  intros Hpre Hrest Hlen. split.
  - unfold add_one_to_string.
    assert (HB : INT_MAX - 1 <= INT_MAX) by lia.
    assert (Hpost : strlen ("255"%char :: rest) = Some (S k)).
    { cbn [strlen]. change (is_NUL "255") with false. now rewrite Hrest. }
    apply (add_one_loop_prefix ("255"%char :: rest) (NUL :: rest) (S k)
             (INT_MAX - 1) Hpost HB
             (fun done fuel => add_one_loop_stops_at_255 rest k done fuel Hrest)
             pre [] _ Hpre (Forall_nil_2 _)).
    + simpl. lia.
    + rewrite length_app. simpl. lia.
  - apply buffer_value_terminated. now apply incremented_text_has_no_NUL.
Qed.

Lemma add_one_to_string_stops_at_255_witness :
  add_one_to_string (["a"] ++ "255" :: ["b"; NUL])%char =
    Ok (map char_incr ["a"]%char ++ NUL :: ["b"; NUL])%char.
Proof.
  apply (add_one_to_string_stops_at_255 ["a"]%char ["b"; NUL]%char 1).
  - repeat constructor; discriminate.
  - reflexivity.
  - unfold INT_MAX. simpl. lia.
Defined.

(** X14.  A buffer without a NUL byte, the empty buffer among them, is not
    a string: the call reads past its end, and no byte is written. *)
Theorem add_one_to_string_unterminated (input : list ascii) :
  Forall (fun c => c <> NUL) input ->
  add_one_to_string input = Undef OutOfBounds.
Proof.
  intros H. unfold add_one_to_string.
  now rewrite add_one_loop_step, strlen_None.
Qed.

Lemma add_one_to_string_unterminated_witness :
  add_one_to_string ["a"; "b"]%char = Undef OutOfBounds.
Proof.
  apply add_one_to_string_unterminated. repeat constructor; discriminate.
Defined.

Lemma buffer_value_take raw : forall n,
  strlen raw = Some n -> buffer_value raw = take n raw.
Proof.
  induction raw as [|c raw IH]; intros n; simpl; [discriminate|].
  destruct (is_NUL c).
  - now intros [= <-].
  - destruct (strlen raw) as [k|]; simpl; [|discriminate].
    intros [= <-]. simpl. now rewrite (IH k).
Qed.

(** X15.  The call with a mutable buffer, for any ordinary text.  For bytes
    that are neither NUL nor 255, at most [INT_MAX] of them, creating a
    string buffer from them and passing it to [add_one_to_string] returns;
    the host then consists of the objects it had and the buffer, whose
    [value] is the bytes each incremented by one. *)
Theorem mutable_buffer_call (h : host) (init : list ascii) :
  Forall (fun c => c <> NUL /\ c <> "255"%char) init ->
  Z.of_nat (length init) <= INT_MAX ->
  let '(b, h1) := create_string_buffer init h in
  let raw' := map char_incr init ++ [NUL] in
  libc_add_one_to_string b h1 = inr (Ok (h ++ [PyStringBuffer raw'], raw')) /\
  buffer_value raw' = map char_incr init.
Proof.
  intros Hinit Hlen. unfold create_string_buffer. cbv zeta. split.
  - unfold libc_add_one_to_string.
    rewrite lookup_app_r, Nat.sub_diag by lia. cbn [lookup list_lookup].
    rewrite (add_one_to_string_text init [] Hinit Hlen).
    now rewrite insert_app_r_alt, Nat.sub_diag by lia.
  - apply buffer_value_terminated. now apply incremented_text_has_no_NUL.
Qed.

Lemma mutable_buffer_call_witness :
  libc_add_one_to_string 1
    [PyStr "abc"; PyStringBuffer (str_encode "abc" ++ [NUL])] =
    inr (Ok ([PyStr "abc"; PyStringBuffer (map char_incr (str_encode "abc") ++ [NUL])],
             map char_incr (str_encode "abc") ++ [NUL])).
Proof.
  apply (mutable_buffer_call [PyStr "abc"] (str_encode "abc")).
  - repeat constructor; discriminate.
  - unfold INT_MAX. simpl. lia.
Defined.

(** X16.  What a call of [add_one_to_string] through ctypes can change in
    the host.  The only refusal is ctypes' ArgumentError, and only for a
    [str] argument that contains the code point 0.  When the call returns,
    the host has as many objects as before, every object other than the
    argument is unchanged, every [str] is unchanged (the argument too, when
    it is one), and a buffer passed as the argument is still a buffer of
    the same size. *)
Theorem libc_call_frame (arg : nat) (h h' : host) (m : list ascii) :
  (forall e,
     libc_add_one_to_string arg h = inl e ->
     e = ArgumentError /\ exists s, h !! arg = Some (PyStr s) /\ In 0%N s) /\
  (libc_add_one_to_string arg h = inr (Ok (h', m)) ->
   length h' = length h /\
   (forall i, i <> arg -> h' !! i = h !! i) /\
   (forall i s, h !! i = Some (PyStr s) -> h' !! i = Some (PyStr s)) /\
   (forall raw, h !! arg = Some (PyStringBuffer raw) ->
      h' !! arg = Some (PyStringBuffer m) /\ length m = length raw)).
Proof.
  unfold libc_add_one_to_string. split.
  - intros e. destruct (h !! arg) as [[s|raw]|]; [| |discriminate].
    + destruct (existsb (N.eqb 0) s) eqn:E.
      * intros [= <-]. split; [reflexivity|]. exists s. split; [reflexivity|].
        apply existsb_exists in E as (z & Hin & Hz).
        apply N.eqb_eq in Hz. now subst z.
      * destruct (add_one_to_string _); discriminate.
    + destruct (add_one_to_string _); discriminate.
  - destruct (h !! arg) as [[s|raw]|] eqn:E; [| |discriminate].
    + destruct (existsb (N.eqb 0) s); [discriminate|].
      destruct (add_one_to_string _); try discriminate.
      intros [= <- <-]. split; [reflexivity|]. split; [auto|]. split; [auto|].
      discriminate.
    + destruct (add_one_to_string raw) as [raw'| |] eqn:Hrun; try discriminate.
      intros [= <- <-]. pose proof (lookup_lt_Some _ _ _ E) as Hlt.
      split; [apply length_insert|].
      split. { intros i Hi. now apply list_lookup_insert_ne. }
      split.
      { intros i s Hs. rewrite list_lookup_insert_ne; [exact Hs|].
        intros ->. rewrite E in Hs. discriminate. }
      intros raw0 [= <-]. split; [now apply list_lookup_insert_eq|].
      unfold add_one_to_string in Hrun.
      destruct (strlen raw) as [n|] eqn:Hn.
      * exact (proj1 (add_one_loop_frame _ _ _ _ _ in_int_0 Hrun Hn)).
      * rewrite add_one_loop_step, Hn in Hrun. discriminate.
Qed.

Lemma libc_call_frame_witness :
  let h := [PyStr "abc"; PyStringBuffer (str_encode "abc" ++ [NUL])] in
  let h' := [PyStr "abc"; PyStringBuffer (str_encode "bcd" ++ [NUL])] in
  (exists s, [PyStr [97; 0; 98]%N] !! 0%nat = Some (PyStr s) /\ In 0%N s) /\
  length h' = length h /\
  (forall i, i <> 1%nat -> h' !! i = h !! i).
Proof.
  intros h h'. split.
  - apply (proj1 (libc_call_frame 0 [PyStr [97; 0; 98]%N] [] []) ArgumentError).
    reflexivity.
  - destruct (proj2 (libc_call_frame 1 h h' (str_encode "bcd" ++ [NUL])))
      as (Hlen & Hother & _).
    + vm_compute. reflexivity.
    + split; assumption.
Defined.

(** * Properties of [alloc_C_string] and [free_C_string] *)

Lemma string_at_phrase (l : list cstring) n out :
  string_at (Ptr (length l))
    (mkCState (l ++ [mkCString Allocated (buffer_value phrase_literal ++ [NUL])]) n out) =
    Ok (list_ascii_of_string "I was written in C").
Proof.
  unfold string_at. cbn [strings].
  now rewrite lookup_app_r, Nat.sub_diag by lia.
Qed.

Lemma alloc_C_string_spec (s : cstate) :
  (string_room s = O ->
   alloc_C_string s =
     Ok (NULL,
         cprintf "      C just allocated %p(%ld):  %s\n"
           [CPtr NULL; CLong NULL; CStr (list_ascii_of_string "(null)")] s) /\
   c_char_p_value NULL s = Ok None) /\
  (string_room s <> O ->
   exists s',
     alloc_C_string s = Ok (Ptr (length (strings s)), s') /\
     strings s !! length (strings s) = None /\
     strings s' =
       strings s ++
         [mkCString Allocated (list_ascii_of_string "I was written in C" ++ [NUL])] /\
     c_char_p_value (Ptr (length (strings s))) s' =
       Ok (Some (list_ascii_of_string "I was written in C")) /\
     S (string_room s') = string_room s /\
     cstdout s' =
       cstdout s ++
         [CPrintf "      C just allocated %p(%ld):  %s\n"
            [CPtr (Ptr (length (strings s))); CLong (Ptr (length (strings s)));
             CStr (list_ascii_of_string "I was written in C")]]).
Proof.
  unfold alloc_C_string, strdup. split.
  - intros ->. split; reflexivity.
  - intros Hroom. destruct (string_room s) as [|n]; [now destruct Hroom|].
    rewrite string_at_phrase. eexists. split; [reflexivity|].
    split; [now apply lookup_ge_None_2|]. split; [reflexivity|].
    split; [|split; reflexivity].
    unfold c_char_p_value, cprintf.
    now rewrite string_at_phrase.
Qed.

(** X17.  [alloc_C_string] returns a new copy of its phrase, or null.  When
    [strdup] has memory, the call returns the address of a live array that
    was not in memory before and holds "I was written in C" and a NUL,
    which is what ctypes reads as the [value] of the pointer; the arrays
    that existed are unchanged and one line is displayed.  When [strdup]
    returns [NULL], the call displays its line with the text (null), as
    the [printf] of the article's target does for a null string, changes
    nothing else and returns [NULL], whose [value] is [None]. *)
Theorem alloc_C_string_copies_phrase (s : cstate) :
  (string_room s = O ->
   alloc_C_string s =
     Ok (NULL,
         cprintf "      C just allocated %p(%ld):  %s\n"
           [CPtr NULL; CLong NULL; CStr (list_ascii_of_string "(null)")] s) /\
   c_char_p_value NULL s = Ok None) /\
  (string_room s <> O ->
   exists s',
     alloc_C_string s = Ok (Ptr (length (strings s)), s') /\
     strings s !! length (strings s) = None /\
     strings s' =
       strings s ++
         [mkCString Allocated (list_ascii_of_string "I was written in C" ++ [NUL])] /\
     c_char_p_value (Ptr (length (strings s))) s' =
       Ok (Some (list_ascii_of_string "I was written in C")) /\
     S (string_room s') = string_room s /\
     cstdout s' =
       cstdout s ++
         [CPrintf "      C just allocated %p(%ld):  %s\n"
            [CPtr (Ptr (length (strings s))); CLong (Ptr (length (strings s)));
             CStr (list_ascii_of_string "I was written in C")]]).
Proof.
  unfold alloc_C_string, strdup. split.
  - intros ->. split; reflexivity.
  - intros Hroom. destruct (string_room s) as [|n]; [now destruct Hroom|].
    rewrite string_at_phrase. eexists. split; [reflexivity|].
    split; [now apply lookup_ge_None_2|]. split; [reflexivity|].
    split; [|split; reflexivity].
    unfold c_char_p_value, cprintf.
    now rewrite string_at_phrase.
Qed.

Lemma alloc_C_string_copies_phrase_witness :
  (exists s0, alloc_C_string (mkCState [] 0 []) = Ok (NULL, s0)) /\
  exists s',
    alloc_C_string (mkCState [] 1 []) = Ok (Ptr 0, s') /\
    c_char_p_value (Ptr 0) s' = Ok (Some (list_ascii_of_string "I was written in C")).
Proof.
  split.
  - eexists.
    apply (proj1 (proj1 (alloc_C_string_copies_phrase (mkCState [] 0 [])) eq_refl)).
  - destruct (proj2 (alloc_C_string_copies_phrase (mkCState [] 1 [])))
      as (s' & H1 & _ & _ & H2 & _).
    + simpl. lia.
    + exists s'. split; assumption.
Defined.

Lemma free_C_string_inv b s r :
  free_C_string (Ptr b) s = Ok r ->
  exists raw n,
    strings s !! b = Some (mkCString Allocated raw) /\
    strlen raw = Some n.
Proof.
  unfold free_C_string, string_at.
  destruct (strings s !! b) as [[[] raw]|] eqn:E; try discriminate.
  destruct (strlen raw) as [n|] eqn:Hn; [|discriminate].
  intros _. exists raw, n. auto.
Qed.

Lemma free_C_string_spec s b raw n :
  strings s !! b = Some (mkCString Allocated raw) ->
  strlen raw = Some n ->
  free_C_string (Ptr b) s =
    Ok (tt, mkCState (<[b := mkCString Released raw]> (strings s))
              (S (string_room s))
              (cstdout s ++
                 [CPrintf "         About to free %p(%ld):  %s\n"
                    [CPtr (Ptr b); CLong (Ptr b); CStr (take n raw)]])).
Proof.
  intros Hb Hn. unfold free_C_string, string_at. rewrite Hb, Hn.
  unfold free_string, cprintf. cbn [strings]. now rewrite Hb.
Qed.

(** X18.  A string from [alloc_C_string] is released exactly once.  When
    [strdup] has memory, [alloc_C_string] followed by [free_C_string] on its
    result returns; the memory [strdup] can provide is then as before, the
    arrays that existed are unchanged, and the line displayed on release
    shows the phrase.  The array is released: a second [free_C_string] on
    the address, and reading the [value] of the pointer, are the use of a
    released object. *)
Theorem string_released_once (s : cstate) :
  string_room s <> O ->
  exists a s1 s2,
    alloc_C_string s = Ok (a, s1) /\
    free_C_string a s1 = Ok (tt, s2) /\
    string_room s2 = string_room s /\
    (forall b, (b < length (strings s))%nat -> strings s2 !! b = strings s !! b) /\
    cstring_life_at s2 (length (strings s)) = Some Released /\
    cstdout s2 =
      cstdout s1 ++
        [CPrintf "         About to free %p(%ld):  %s\n"
           [CPtr a; CLong a; CStr (list_ascii_of_string "I was written in C")]] /\
    free_C_string a s2 = Undef UseAfterFree /\
    c_char_p_value a s2 = Undef UseAfterFree.
Proof.
  intros Hroom.
  destruct (proj2 (alloc_C_string_spec s) Hroom)
    as (s1 & Halloc & _ & Hstr & _ & Hr & _).
  set (b := length (strings s)) in *.
  assert (Hb : strings s1 !! b =
               Some (mkCString Allocated
                       (list_ascii_of_string "I was written in C" ++ [NUL]))).
  { rewrite Hstr. subst b. now rewrite lookup_app_r, Nat.sub_diag by lia. }
  pose proof (free_C_string_spec s1 b _ 18 Hb eq_refl) as Hfree.
  set (s2 := mkCState _ _ _) in Hfree.
  assert (Hb2 : strings s2 !! b =
                Some (mkCString Released
                        (list_ascii_of_string "I was written in C" ++ [NUL]))).
  { subst s2. cbn [strings]. apply list_lookup_insert_eq. now apply lookup_lt_Some in Hb. }
  exists (Ptr b), s1, s2. split; [exact Halloc|]. split; [exact Hfree|].
  split. { subst s2. cbn [string_room]. lia. }
  split.
  { intros b' Hlt. subst s2. cbn [strings].
    rewrite list_lookup_insert_ne by (subst b; lia).
    rewrite Hstr. now apply lookup_app_l. }
  split. { unfold cstring_life_at. now rewrite Hb2. }
  split; [reflexivity|].
  unfold free_C_string, c_char_p_value, string_at. now rewrite Hb2.
Qed.

Lemma string_released_once_witness :
  exists a s1 s2,
    alloc_C_string (mkCState [] 1 []) = Ok (a, s1) /\
    free_C_string a s1 = Ok (tt, s2) /\
    free_C_string a s2 = Undef UseAfterFree.
Proof.
  destruct (string_released_once (mkCState [] 1 []))
    as (a & s1 & s2 & H1 & H2 & _ & _ & _ & _ & H3 & _).
  - simpl. lia.
  - exists a, s1, s2. repeat split; assumption.
Defined.

(** X19.  [free_C_string] reads the string before it frees it.  It returns
    exactly when its argument is null or the address of a live array that
    contains a NUL.  On the null pointer it displays its line with the text
    (null), as the [printf] of the article's target does, and changes
    nothing else.  On an address, the array is released when it returns,
    every other array is unchanged, and the line displayed carries the
    bytes of the array before its first NUL. *)
Theorem free_C_string_returns_iff_live (a : ptr) (s : cstate) :
  ((exists s', free_C_string a s = Ok (tt, s')) <->
   (a = NULL \/
    exists b raw n,
      a = Ptr b /\
      strings s !! b = Some (mkCString Allocated raw) /\
      strlen raw = Some n)) /\
  free_C_string NULL s =
    Ok (tt, cprintf "         About to free %p(%ld):  %s\n"
              [CPtr NULL; CLong NULL; CStr (list_ascii_of_string "(null)")] s) /\
  (forall s' b,
     free_C_string a s = Ok (tt, s') ->
     a = Ptr b ->
     cstring_life_at s' b = Some Released /\
     (forall b', b' <> b -> strings s' !! b' = strings s !! b') /\
     exists raw,
       strings s !! b = Some (mkCString Allocated raw) /\
       cstdout s' =
         cstdout s ++
           [CPrintf "         About to free %p(%ld):  %s\n"
              [CPtr a; CLong a; CStr (buffer_value raw)]]).
Proof.
  split; [|split; [reflexivity|]].
  - split.
    + intros [s' H]. destruct a as [|b]; [now left|right].
      destruct (free_C_string_inv _ _ _ H) as (raw & n & Hb & Hn).
      exists b, raw, n. auto.
    + intros [->|(b & raw & n & -> & Hb & Hn)].
      * eexists. reflexivity.
      * rewrite (free_C_string_spec _ _ _ _ Hb Hn). eauto.
  - intros s' b Hrun ->.
    destruct (free_C_string_inv _ _ _ Hrun) as (raw & n & Hb & Hn).
    rewrite (free_C_string_spec _ _ _ _ Hb Hn) in Hrun. injection Hrun as <-.
    unfold cstring_life_at. cbn [strings cstdout].
    rewrite list_lookup_insert_eq by (now apply lookup_lt_Some in Hb).
    split; [reflexivity|].
    split. { intros b' Hne. now apply list_lookup_insert_ne. }
    exists raw. split; [exact Hb|]. now rewrite (buffer_value_take raw n Hn).
Qed.

Lemma free_C_string_returns_iff_live_witness :
  exists s',
    free_C_string (Ptr 0)
      (mkCState [mkCString Allocated (list_ascii_of_string "hi" ++ [NUL])] 0 []) =
      Ok (tt, s').
Proof.
  apply (proj2 (proj1 (free_C_string_returns_iff_live (Ptr 0)
           (mkCState [mkCString Allocated (list_ascii_of_string "hi" ++ [NUL])] 0 [])))).
  right. exists 0%nat, (list_ascii_of_string "hi" ++ [NUL]), 2%nat.
  repeat split; reflexivity.
Defined.

(** * The string function keeps its buffer a string *)

Lemma add_one_loop_strlen fuel : forall ii input r n,
  in_int ii ->
  add_one_loop fuel ii input = Ok r ->
  strlen input = Some n ->
  exists n', strlen r = Some n' /\ (n' <= n)%nat.
Proof.
  induction fuel as [|fuel IH]; intros ii input r n Hint; [discriminate|].
  rewrite add_one_loop_step. intros Hrun Hn. rewrite Hn in Hrun.
  destruct (to_size_t ii <? Z.of_nat n) eqn:Hcond.
  2:{ injection Hrun as <-. eauto. }
  destruct (ii <? 0) eqn:Hneg; [discriminate|].
  destruct (loop_body _ _ _ Hn Hint Hcond Hneg) as (c & Hc & Hk).
  rewrite Hc in Hrun.
  destruct (strlen_insert _ _ _ (char_incr c) Hn Hk) as (n1 & Hn1 & Hle).
  destruct (IH _ _ _ _ (in_int_wrap _) Hrun Hn1) as (n' & Hn' & Hle').
  exists n'. split; [exact Hn'|lia].
Qed.

(** X20.  [add_one_to_string] never makes its string longer and never
    changes the size of its buffer.  Whenever the call returns, the buffer
    has the length it had and still contains a NUL, and [strlen] of the
    result is at most [strlen] of the argument; it returns only for a
    buffer that contains a NUL. *)
Theorem add_one_to_string_never_lengthens (input r : list ascii) :
  add_one_to_string input = Ok r ->
  length r = length input /\
  exists n n',
    strlen input = Some n /\ strlen r = Some n' /\ (n' <= n)%nat /\
    (n < length input)%nat.
Proof.
  intros Hrun. unfold add_one_to_string in Hrun.
  destruct (strlen input) as [n|] eqn:Hn.
  - destruct (add_one_loop_frame _ _ _ _ _ in_int_0 Hrun Hn) as [Hlen _].
    destruct (add_one_loop_strlen _ _ _ _ _ in_int_0 Hrun Hn) as (n' & Hn' & Hle).
    split; [exact Hlen|]. exists n, n'.
    repeat split; try assumption. now apply strlen_lt_length.
  - rewrite add_one_loop_step, Hn in Hrun. discriminate.
Qed.

Lemma add_one_to_string_never_lengthens_witness :
  let r := ["b"; NUL; "b"; NUL]%char in
  length r = 4%nat /\
  exists n n',
    strlen ["a"; "255"; "b"; NUL]%char = Some n /\ strlen r = Some n' /\
    (n' <= n)%nat /\ (n < 4)%nat.
Proof.
  intros r.
  apply (add_one_to_string_never_lengthens ["a"; "255"; "b"; NUL]%char r).
  vm_compute. reflexivity.
Defined.

Lemma char_incr_255 c : char_incr c = "255"%char <-> c = "254"%char.
Proof.
  split.
  - destruct c as [[] [] [] [] [] [] [] []]; vm_compute; intros H;
      first [reflexivity | discriminate H].
  - now intros ->.
Qed.

(** X21.  Calls of [add_one_to_string] add up.  For text whose bytes are
    none of NUL, 254 and 255, at most [INT_MAX] of them, a second call on
    the buffer the first call left returns as well and leaves every byte
    of the text incremented by two, the NUL and what follows it
    unchanged. *)
Theorem add_one_to_string_twice (pre post : list ascii) :
  Forall (fun c => c <> NUL /\ c <> "254"%char /\ c <> "255"%char) pre ->
  Z.of_nat (length pre) <= INT_MAX ->
  exists r1,
    add_one_to_string (pre ++ NUL :: post) = Ok r1 /\
    add_one_to_string r1 =
      Ok (map (fun c => char_incr (char_incr c)) pre ++ NUL :: post).
Proof.
  intros Hpre Hlen.
  exists (map char_incr pre ++ NUL :: post). split.
  - apply add_one_to_string_text; [|exact Hlen].
    eapply Forall_impl; [exact Hpre|]. now intros c (? & ? & ?).
  - rewrite add_one_to_string_text.
    + now rewrite map_map.
    + apply Forall_map. eapply Forall_impl; [exact Hpre|].
      intros c (H0 & H254 & H255). split.
      * intros H. apply char_incr_NUL in H. contradiction.
      * intros H. apply char_incr_255 in H. contradiction.
    + now rewrite length_map.
Qed.

Lemma add_one_to_string_twice_witness :
  exists r1,
    add_one_to_string (["H"; "A"; "L"] ++ NUL :: [])%char = Ok r1 /\
    add_one_to_string r1 =
      Ok (map (fun c => char_incr (char_incr c)) ["H"; "A"; "L"]%char ++ NUL :: []).
Proof.
  apply add_one_to_string_twice.
  - repeat constructor; discriminate.
  - unfold INT_MAX. simpl. lia.
Defined.
